(** * AI Quiz Generator: the response parser, the grader and the session

    A shallow embedding of [quiz_generator.py].

    - Python strings are lists of characters.  The embedding covers ASCII
      text: [str.strip] removes the ASCII whitespace characters and
      [str.upper] / [str.lower] act on the letters a-z / A-Z only.
    - Python floats are the binary64 values of the Standard Library's
      [SpecFloat], so that [len(questions) * 0.7] is rounded as in the source.
    - The Streamlit calls that render something are recorded in an output
      log; the widgets ([st.text_area], [st.selectbox], [st.button],
      [st.radio], [st.form_submit_button]) are inputs of a run and their
      values are read from a record.
    - [st.session_state] is the optional list stored under "questions".
    - The HTTP call is an endpoint: a function from the prompt to what
      [requests.post] and [response.json()] hand back. *)

From Stdlib Require Import Ascii String DecimalString SpecFloat.
From Stdlib Require Import ZArith QArith Lia Bool Arith PeanoNat List.
Import ListNotations.

Local Open Scope list_scope.
Local Open Scope nat_scope.

(** ** Python string primitives *)

Definition str := list ascii.

Definition lit (s : string) : str := list_ascii_of_string s.

(** The line feed, written [\n] in the source. *)
Definition nl : ascii := ascii_of_nat 10.

Fixpoint str_eqb (a b : str) : bool :=
  match a, b with
  | [], [] => true
  | x :: a', y :: b' => Ascii.eqb x y && str_eqb a' b'
  | _, _ => false
  end.

(** [str.isspace] on one ASCII character: tab, line feed, vertical tab, form
    feed, carriage return, the four separators 0x1c-0x1f and the space. *)
Definition isspace (c : ascii) : bool :=
  let n := nat_of_ascii c in
  ((9 <=? n) && (n <=? 13)) || ((28 <=? n) && (n <=? 32)).

Fixpoint lstrip (s : str) : str :=
  match s with
  | [] => []
  | c :: s' => if isspace c then lstrip s' else s
  end.

Definition rstrip (s : str) : str := rev (lstrip (rev s)).

(** [s.strip()] *)
Definition strip (s : str) : str := rstrip (lstrip s).

Definition upper_char (c : ascii) : ascii :=
  let n := nat_of_ascii c in
  if (97 <=? n) && (n <=? 122) then ascii_of_nat (n - 32) else c.

Definition lower_char (c : ascii) : ascii :=
  let n := nat_of_ascii c in
  if (65 <=? n) && (n <=? 90) then ascii_of_nat (n + 32) else c.

(** [s.upper()] and [s.lower()] *)
Definition upper (s : str) : str := map upper_char s.
Definition lower (s : str) : str := map lower_char s.

(** [s.startswith(p)] *)
Fixpoint startswith (p s : str) : bool :=
  match p, s with
  | [], _ => true
  | x :: p', y :: s' => Ascii.eqb x y && startswith p' s'
  | _ :: _, [] => false
  end.

(** [sub in s] *)
Fixpoint contains (sub s : str) : bool :=
  startswith sub s ||
  match s with
  | [] => false
  | _ :: s' => contains sub s'
  end.

Definition add_first (c : ascii) (pieces : list str) : list str :=
  match pieces with
  | [] => [[c]]
  | p :: ps => (c :: p) :: ps
  end.

(** [s.split(sep)] for a non-empty separator: the string is scanned from the
    left, every occurrence of [sep] found ends a piece and scanning resumes
    after it.  [skip] counts the characters of a separator just matched that
    are still to be passed over. *)
Fixpoint split_from (sep : str) (skip : nat) (s : str) : list str :=
  match s with
  | [] => [[]]
  | c :: s' =>
      match skip with
      | S k => split_from sep k s'
      | O =>
          if startswith sep s
          then [] :: split_from sep (length sep - 1) s'
          else add_first c (split_from sep 0 s')
      end
  end.

Definition split (sep s : str) : list str := split_from sep 0 s.

(** [s.replace(old, new)] for a non-empty [old]: every occurrence met while
    scanning from the left is replaced, occurrences do not overlap and the
    replacement is not scanned again. *)
Fixpoint replace_from (old new : str) (skip : nat) (s : str) : str :=
  match s with
  | [] => []
  | c :: s' =>
      match skip with
      | S k => replace_from old new k s'
      | O =>
          if startswith old s
          then new ++ replace_from old new (length old - 1) s'
          else c :: replace_from old new 0 s'
      end
  end.

Definition replace (old new s : str) : str := replace_from old new 0 s.

(** [sep.join(pieces)] *)
Fixpoint join (sep : str) (pieces : list str) : str :=
  match pieces with
  | [] => []
  | [p] => p
  | p :: ps => p ++ sep ++ join sep ps
  end.

(** [str(n)] for a non-negative integer. *)
Definition str_of_nat (n : nat) : str :=
  lit (NilZero.string_of_uint (Nat.to_uint n)).

(** ** The response parser *)

(** The dictionary [q_data] built for each block. *)
Record Question := mkQuestion {
  question : str;
  options : list str;
  answer : str
}.

Definition set_question (q : Question) (v : str) : Question :=
  mkQuestion v (options q) (answer q).

Definition append_option (q : Question) (v : str) : Question :=
  mkQuestion (question q) (options q ++ [v]) (answer q).

Definition set_answer (q : Question) (v : str) : Question :=
  mkQuestion (question q) (options q) v.

Definition in_A_D (c : ascii) : bool :=
  let n := nat_of_ascii c in (65 <=? n) && (n <=? 68).

Definition close_or_dot (c : ascii) : bool :=
  Ascii.eqb c ")" || Ascii.eqb c ".".

(** [re.match(r"^[A-D][).]", s)] *)
Definition re_match_option (s : str) : bool :=
  match s with
  | c1 :: c2 :: _ => in_A_D c1 && close_or_dot c2
  | _ => false
  end.

(** The body of [for line in lines]. *)
Definition scan_line (q : Question) (line : str) : Question :=
  if startswith (lit "Question:") line then
    set_question q (strip (replace (lit "Question:") [] line))
  else if re_match_option (strip line) then
    append_option q (strip line)
  else if startswith (lit "Answer:") line then
    set_answer q (upper (strip (replace (lit "Answer:") [] line)))
  else q.

Definition empty_q_data : Question := mkQuestion [] [] [].

(** One pass of [for block in blocks] up to the test of line 31. *)
Definition scan_block (block : str) : Question :=
  fold_left scan_line (split [nl] (strip block)) empty_q_data.

Definition nonempty {A} (l : list A) : bool :=
  match l with
  | [] => false
  | _ :: _ => true
  end.

(** [q_data["question"] and q_data["options"] and q_data["answer"]] *)
Definition accepted (q : Question) : bool :=
  nonempty (question q) && nonempty (options q) && nonempty (answer q).

Definition blocks_of (raw_text : str) : list str :=
  split [nl; nl] (strip raw_text).

Definition parse_questions (raw_text : str) : list Question :=
  fold_left
    (fun questions block =>
       let q_data := scan_block block in
       if accepted q_data then questions ++ [q_data] else questions)
    (blocks_of raw_text) [].

(** ** Python numbers

    [len(questions) * 0.7] converts the integer to a binary64 float and
    multiplies with rounding to nearest, ties to even; [score >= x] compares
    the integer with the float exactly.  Floats are the [spec_float] values of
    the Standard Library with 53 bits of precision. *)

Definition prec : Z := 53.
Definition emax : Z := 1024.

(** [float(n)]; list lengths stay far below the range of binary64, where the
    conversion cannot overflow. *)
Definition float_of_int (n : Z) : spec_float :=
  binary_normalize prec emax n 0 false.

(** [n * x] for an integer [n] and a float [x]. *)
Definition int_mul_float (n : Z) (x : spec_float) : spec_float :=
  SFmul prec emax (float_of_int n) x.

(** The literals [0.7] and [0.4]: the binary64 values nearest to 7/10 and
    4/10. *)
Definition float_0_7 : spec_float := S754_finite false 6305039478318694 (-53).
Definition float_0_4 : spec_float := S754_finite false 7205759403792794 (-54).

(** [i >= x] for an integer [i] and a float [x]. *)
Definition int_ge_float (i : Z) (x : spec_float) : bool :=
  match x with
  | S754_zero _ => (0 <=? i)%Z
  | S754_infinity s => s
  | S754_nan => false
  | S754_finite true m e =>
      if (e <? 0)%Z then (- Zpos m <=? i * 2 ^ (- e))%Z
      else (- (Zpos m * 2 ^ e) <=? i)%Z
  | S754_finite false m e =>
      if (e <? 0)%Z then (Zpos m <=? i * 2 ^ (- e))%Z
      else (Zpos m * 2 ^ e <=? i)%Z
  end.

(** ** Streamlit output *)

Inductive ui : Type :=
  | st_title (s : str)
  | st_write (s : str)
  | st_subheader (s : str)
  | st_warning (s : str)
  | st_success (s : str)
  | st_error (s : str)
  | st_info (s : str)
  | st_markdown (s : str)
  | st_balloons
  | st_snow.

(** A run of a function either completes with the output it rendered or is
    aborted by an uncaught exception. *)
Inductive result (A : Type) : Type :=
  | Ok (a : A)
  | Crash (exception : str).

Arguments Ok {A} a.
Arguments Crash {A} exception.

(** ** Grading *)

(** The loop of lines 83-94: the value of each radio widget is read;
    [selections] holds the widget values by question index, [None] for a
    widget with nothing chosen. *)
Definition radio (selections : list (option str)) (index : nat) : option str :=
  nth index selections None.

Definition collect_step (selections : list (option str))
    (acc : bool * list (option str)) (index : nat) : bool * list (option str) :=
  let '(all_answered, selected_answers) := acc in
  match radio selections index with
  | Some (c :: _) => (all_answered, selected_answers ++ [Some [c]])
  | _ => (false, selected_answers ++ [None])
  end.

Definition collect (questions : list Question) (selections : list (option str))
    : bool * list (option str) :=
  fold_left (collect_step selections) (seq 0 (length questions)) (true, []).

(** [next((opt for opt in q["options"] if opt.startswith(correct)), "Not found")] *)
Definition correct_option_of (q : Question) : str :=
  match find (startswith (answer q)) (options q) with
  | Some opt => opt
  | None => lit "Not found"
  end.

Definition msg_correct (i : nat) (user_answer : str) : str :=
  lit "Q" ++ str_of_nat (i + 1) ++ lit ": Correct (Your Answer: "
    ++ user_answer ++ lit ")".

Definition msg_incorrect (i : nat) (user_answer : str) : str :=
  lit "Q" ++ str_of_nat (i + 1) ++ lit ": Incorrect (Your Answer: "
    ++ user_answer ++ lit ")".

Definition msg_correct_answer (correct_option : str) : str :=
  lit "Correct Answer: " ++ correct_option.

(** The body of the loop of lines 105-113; [acc] is the score and the output
    so far. *)
Definition grade_step (acc : result (nat * list ui))
    (item : nat * (Question * option str)) : result (nat * list ui) :=
  match acc with
  | Crash e => Crash e
  | Ok (score, out) =>
      let '(i, (q, user_answer)) := item in
      let correct := answer q in
      match user_answer with
      | None => Crash (lit "AttributeError: 'NoneType' object has no attribute 'upper'")
      | Some ua =>
          if str_eqb (upper ua) correct
          then Ok (score + 1, out ++ [st_success (msg_correct i ua)])
          else Ok (score, out ++ [st_error (msg_incorrect i ua);
                                  st_info (msg_correct_answer (correct_option_of q))])
      end
  end.

(** [enumerate(zip(questions, selected_answers))] *)
Definition enumerate {A} (l : list A) : list (nat * A) :=
  combine (seq 0 (length l)) l.

Definition grade (questions : list Question) (selected_answers : list (option str))
    : result (nat * list ui) :=
  fold_left grade_step (enumerate (combine questions selected_answers))
    (Ok (0, [])).

Definition msg_final_score (score total : nat) : str :=
  lit "Final Score: " ++ str_of_nat score ++ lit "/" ++ str_of_nat total.

Definition msg_top : str := lit "Perfect Score! You're a quiz master!".
Definition msg_high : str := lit "Great job! You're almost there! Keep it up!".
Definition msg_mid : str := lit "Not bad! You're improving!".
Definition msg_low : str :=
  lit "Donâ€™t give up! Every mistake is a step forward.".

(** The encouragement chain of lines 118-127. *)
Definition encouragement (score total : nat) : list ui :=
  if score =? total then
    [st_balloons; st_success msg_top]
  else if int_ge_float (Z.of_nat score) (int_mul_float (Z.of_nat total) float_0_7) then
    [st_snow; st_success msg_high]
  else if int_ge_float (Z.of_nat score) (int_mul_float (Z.of_nat total) float_0_4) then
    [st_info msg_mid]
  else
    [st_warning msg_low].

Definition msg_answer_all : str :=
  lit "Please answer all questions before submitting.".

Definition closing : list ui :=
  [st_markdown (lit "---");
   st_markdown (lit "Want to try again with new content? Just paste it above and hit 'Generate Quiz'.")].

(** [display_quiz()], reading the questions of the session store, the values
    of the radio widgets and of the submit button. *)
Definition display_quiz (questions : list Question)
    (selections : list (option str)) (submitted : bool) : result (list ui) :=
  let out := [st_subheader (lit "Quiz")] in
  let '(all_answered, selected_answers) := collect questions selections in
  if submitted then
    if negb all_answered then
      Ok (out ++ [st_warning msg_answer_all])
    else
      let out := out ++ [st_subheader (lit "Quiz Results")] in
      match grade questions selected_answers with
      | Crash e => Crash e
      | Ok (score, graded) =>
          Ok (out ++ graded
                ++ [st_markdown (msg_final_score score (length questions))]
                ++ encouragement score (length questions)
                ++ closing)
      end
  else Ok out.

(** ** Generation *)

(** The f-string of [fetch_questions], line by line: the text before
    [{quiz_level}], the text between it and [{text_content}], and the text
    after. *)
Definition prompt_head : str :=
  [nl]
  ++ lit "    You are an expert in creating multiple-choice quizzes." ++ [nl]
  ++ lit "    Based on the following text, generate 5 multiple-choice questions with 4 answer options each at a ".

Definition prompt_middle : str :=
  lit " difficulty level." ++ [nl]
  ++ [nl]
  ++ lit "    Text: ".

Definition prompt_tail : str :=
  [nl]
  ++ [nl]
  ++ lit "    Format:" ++ [nl]
  ++ lit "    Question: [Question Text]" ++ [nl]
  ++ lit "    A) [Option A]" ++ [nl]
  ++ lit "    B) [Option B]" ++ [nl]
  ++ lit "    C) [Option C]" ++ [nl]
  ++ lit "    D) [Option D]" ++ [nl]
  ++ lit "    Answer: [Correct Option Letter]" ++ [nl]
  ++ lit "    ".

Definition prompt (text_content quiz_level : str) : str :=
  prompt_head ++ quiz_level ++ prompt_middle ++ text_content ++ prompt_tail.

(** What the parsed reply [data] offers to lines 65-69: whether it has the
    key "candidates", and then either the text found under
    [["candidates"][0]["content"]["parts"][0]["text"]] or the exception the
    lookup raises; and the value of [data.get('message', 'Unknown error')]. *)
Inductive candidates_field : Type :=
  | candidates_missing
  | candidates_text (result_text : str)
  | candidates_malformed (exception : str).

Record response := mkResponse {
  status_code : nat;
  candidates : candidates_field;
  message : option str
}.

(** What [requests.post] followed by [response.json()] comes to. *)
Inductive post_outcome : Type :=
  | post_raises (exception : str)
  | post_returns (r : response).

(** The generative model endpoint: the outcome of posting a prompt. *)
Definition endpoint := str -> post_outcome.

(** [fetch_questions(text_content, quiz_level)]: the value returned, [None]
    included, and the errors rendered. *)
Definition fetch_questions (post : endpoint) (text_content quiz_level : str)
    : option (list Question) * list ui :=
  match post (prompt text_content quiz_level) with
  | post_raises e => (None, [st_error (lit "API Error: " ++ e)])
  | post_returns r =>
      match status_code r =? 200, candidates r with
      | true, candidates_text result_text =>
          (Some (parse_questions result_text), [])
      | true, candidates_malformed e =>
          (None, [st_error (lit "API Error: " ++ e)])
      | _, _ =>
          (None,
           [st_error (lit "Error " ++ str_of_nat (status_code r) ++ lit ": "
                        ++ match message r with
                           | Some m => m
                           | None => lit "Unknown error"
                           end)])
      end
  end.

(** ** The session *)

Inductive level : Type := Easy | Medium | Hard.

(** The entries of the select box. *)
Definition level_name (l : level) : str :=
  match l with
  | Easy => lit "Easy"
  | Medium => lit "Medium"
  | Hard => lit "Hard"
  end.

(** [st.session_state]: the value under the key "questions", when present. *)
Definition session_state := option (list Question).

(** What one run of the script reads: the widgets and the endpoint. *)
Record inputs := mkInputs {
  text_content : str;
  selected_level : level;
  generate : bool;
  post : endpoint;
  selections : list (option str);
  submitted : bool
}.

Definition heading : list ui :=
  [st_title (lit "AI Quiz Generator");
   st_write (lit "Paste your content below and generate a quiz using AI.")].

Definition msg_enter_content : str :=
  lit "Please enter some content before generating a quiz.".

Definition msg_generating : str := lit "Generating quiz, please wait...".

Definition msg_could_not : str := lit "Could not generate quiz. Please try again.".

(** The tail of [main]: the quiz is displayed when the store holds one. *)
Definition show_quiz (state : session_state) (inp : inputs) (out : list ui)
    : session_state * result (list ui) :=
  match state with
  | None => (state, Ok out)
  | Some questions =>
      match display_quiz questions (selections inp) (submitted inp) with
      | Crash e => (state, Crash e)
      | Ok shown => (state, Ok (out ++ shown))
      end
  end.

(** One run of [main()] from a session store: the store it leaves and the
    output it renders. *)
Definition main (state : session_state) (inp : inputs)
    : session_state * result (list ui) :=
  let quiz_level := lower (level_name (selected_level inp)) in
  if generate inp then
    if negb (nonempty (strip (text_content inp))) then
      (state, Ok (heading ++ [st_warning msg_enter_content]))
    else
      let out := heading ++ [st_info msg_generating] in
      let '(questions, errors) :=
        fetch_questions (post inp) (text_content inp) quiz_level in
      match questions with
      | Some (q :: qs) => show_quiz (Some (q :: qs)) inp (out ++ errors)
      | _ => (state, Ok (out ++ errors ++ [st_error msg_could_not]))
      end
  else show_quiz state inp heading.

(** * Specification vocabulary *)

(** A string has no outer whitespace when neither its first nor its last
    character is a whitespace character. *)
Definition no_outer_space (s : str) : Prop :=
  (forall c t, s = c :: t -> isspace c = false) /\
  (forall c t, s = t ++ [c] -> isspace c = false).

(** The minimal check in the words of the specification: the question text is
    not the empty string, at least one option line was captured and the
    answer is not the empty string. *)
Definition minimal_check (q : Question) : bool :=
  negb (str_eqb (question q) []) && (1 <=? length (options q))
    && negb (str_eqb (answer q) []).

(** An option string in the shape the parser looks for: a letter A-D, then a
    closing parenthesis or a full stop, then anything. *)
Definition option_shaped (o : str) : Prop :=
  exists c1 c2 rest,
    o = c1 :: c2 :: rest /\
    In c1 (lit "ABCD") /\ In c2 (lit ").").

(** What every record held in [q_data] satisfies while a block is scanned. *)
Definition scan_invariant (q : Question) : Prop :=
  no_outer_space (question q) /\
  Forall option_shaped (options q) /\
  no_outer_space (answer q) /\
  upper (answer q) = answer q.

(** ** Grading, in the words of the specification *)

(** A radio widget holds an answer when an option is chosen in it. *)
Definition answered (selected : option str) : bool :=
  match selected with
  | Some (_ :: _) => true
  | _ => false
  end.

(** The label of a chosen option: its first character. *)
Definition label_of (selected : option str) : str :=
  match selected with
  | Some (c :: _) => [c]
  | _ => []
  end.

(** The values of the radio widgets of a quiz, by question index. *)
Definition widget_values (questions : list Question)
    (selections : list (option str)) : list (option str) :=
  map (radio selections) (seq 0 (length questions)).

(** A question is answered correctly when the selected label, uppercased,
    equals its stored answer. *)
Definition is_correct (q : Question) (label : str) : bool :=
  str_eqb (upper label) (answer q).

(** What is shown for question number [i] (counted from 0). *)
Definition report (i : nat) (q : Question) (label : str) : list ui :=
  if is_correct q label
  then [st_success (msg_correct i label)]
  else [st_error (msg_incorrect i label);
        st_info (msg_correct_answer (correct_option_of q))].

Fixpoint reports (i : nat) (questions : list Question) (labels : list str) : list ui :=
  match questions, labels with
  | q :: questions', label :: labels' =>
      report i q label ++ reports (S i) questions' labels'
  | _, _ => []
  end.

(** The number of correct matches. *)
Fixpoint count_correct (questions : list Question) (labels : list str) : nat :=
  match questions, labels with
  | q :: questions', label :: labels' =>
      (if is_correct q label then 1 else 0) + count_correct questions' labels'
  | _, _ => 0
  end.

(** The whole output of a graded submission. *)
Definition graded_output (questions : list Question) (labels : list str) : list ui :=
  [st_subheader (lit "Quiz"); st_subheader (lit "Quiz Results")]
  ++ reports 0 questions labels
  ++ [st_markdown (msg_final_score (count_correct questions labels) (length questions))]
  ++ encouragement (count_correct questions labels) (length questions)
  ++ closing.

(** A question whose stored answer is the beginning of none of its options. *)
Definition unmatched (q : Question) : Prop :=
  forall opt, In opt (options q) -> startswith (answer q) opt = false.

(** The denominator the specification asks for: the questions whose answer
    matches one of their options. *)
Definition scored_total (questions : list Question) : nat :=
  length (filter (fun q => existsb (startswith (answer q)) (options q)) questions).

(** A question whose answer names no option, and the option chosen for it. *)
Definition q_unmatched : Question :=
  mkQuestion (lit "Capital of France?") [lit "A) Paris"; lit "B) Rome"] (lit "E").

Definition chosen_unmatched : list (option str) := [Some (lit "A) Paris")].

(** ** Generation, in the words of the specification *)

(** The prompt that a run sends when it generates a quiz. *)
Definition prompt_sent (inp : inputs) : str :=
  prompt (text_content inp) (lower (level_name (selected_level inp))).

(** The same run against another endpoint. *)
Definition with_post (inp : inputs) (p : endpoint) : inputs :=
  mkInputs (text_content inp) (selected_level inp) (generate inp) p
    (selections inp) (submitted inp).



Definition photosynthesis : str := lit "Photosynthesis converts light into energy.".

(** An endpoint that is down. *)
Definition unreachable : endpoint := fun _ => post_raises (lit "Connection refused").


Definition run_medium (p : endpoint) : inputs :=
  mkInputs photosynthesis Medium true p [] false.

(** A reply with one block of two options, and the question it holds. *)
Definition raw_two_options : str :=
  join [nl] [lit "Question: What is 2+2?"; lit "A) 3"; lit "B. 4"; lit "Answer: b"].

Definition q_two_options : Question :=
  mkQuestion (lit "What is 2+2?") [lit "A) 3"; lit "B. 4"] (lit "B").

(** ** Feedback, in the words of the specification *)

Inductive tier : Type := Top | High | Mid | Low.

(** What is rendered for each tier. *)
Definition tier_events (t : tier) : list ui :=
  match t with
  | Top => [st_balloons; st_success msg_top]
  | High => [st_snow; st_success msg_high]
  | Mid => [st_info msg_mid]
  | Low => [st_warning msg_low]
  end.

(** The ratio score/total as a rational number. *)
Definition ratio (score total : nat) : Q :=
  (inject_Z (Z.of_nat score) / inject_Z (Z.of_nat total))%Q.

(** The tier of a ratio: the tests are tried in this order and their
    boundaries are inclusive. *)
Definition tier_of_ratio (r : Q) : tier :=
  if Qeq_bool r 1 then Top
  else if Qle_bool (7 # 10) r then High
  else if Qle_bool (4 # 10) r then Mid
  else Low.

(** [m] is [M / 2^k] rounded to a nearest integer. *)
Definition nearest (M k m : Z) : Prop :=
  (M / 2 ^ k <= m <= M / 2 ^ k + 1
   /\ (m = M / 2 ^ k -> 2 * (M mod 2 ^ k) <= 2 ^ k)
   /\ (m = M / 2 ^ k + 1 -> 2 ^ k <= 2 * (M mod 2 ^ k)))%Z.

(** ** Lines, paragraphs and separators *)

Definition nl_free (s : str) : Prop := ~ In nl s.

(** Every line feed of [p] is followed by another character of [p]. *)
Definition paragraph (p : str) : Prop :=
  forall pre post, p = pre ++ nl :: post ->
    exists c post', post = c :: post' /\ c <> nl.

(** No occurrence of [sep] begins inside [p], whatever follows [p]. *)
Definition clean (sep p : str) : Prop :=
  forall pre c post tail,
    p = pre ++ c :: post -> startswith sep (c :: post ++ tail) = false.

(** ** Replies that follow the grammar *)

(** The parts a block of the grammar is made of. *)
Record block := mkBlock {
  text : str;
  option_a : str;
  option_b : str;
  option_c : str;
  option_d : str;
  letter : ascii
}.

Definition block_lines (b : block) : list str :=
  [lit "Question: " ++ text b;
   lit "A) " ++ option_a b;
   lit "B) " ++ option_b b;
   lit "C) " ++ option_c b;
   lit "D) " ++ option_d b;
   lit "Answer: " ++ [letter b]].



(** A block follows the grammar when its texts are texts of one line, the
    question text is not empty and the letter is one of A-D. *)
Definition follows_grammar (b : block) : Prop :=
  text b <> [] /\ nl_free (text b)
  /\ nl_free (option_a b) /\ nl_free (option_b b)
  /\ nl_free (option_c b) /\ nl_free (option_d b)
  /\ In (letter b) (lit "ABCD").





(** Two blocks in the grammar. *)
Definition block_sky : block :=
  mkBlock (lit "What colour is the sky?")
    (lit "Green") (lit "Blue") (lit "Red") (lit "Black") "B".


(** A reply whose answer names none of its two options, and a reply with no
    "Answer:" line. *)
Definition raw_unmatched : str :=
  join [nl] [lit "Question: Capital of France?"; lit "A) Paris"; lit "B) Rome";
             lit "Answer: E"].

Definition raw_no_answer : str :=
  join [nl] [lit "Question: Capital of France?"; lit "A) Paris"; lit "B) Rome"].

(** ** More vocabulary for the parser *)

(** A string made of whitespace only. *)
Definition all_space (s : str) : Prop := Forall (fun c => isspace c = true) s.

(** The last line of [lines] that begins with [prefix], when there is one. *)
Definition last_with_prefix (prefix : str) (lines : list str) : option str :=
  find (startswith prefix) (rev lines).


(** ** More vocabulary for grading *)


(** The tiers from the lowest to the highest. *)
Definition tier_rank (t : tier) : nat :=
  match t with
  | Low => 0
  | Mid => 1
  | High => 2
  | Top => 3
  end.

(** A reply whose answer line repeats the text of the option. *)
Definition raw_long_answer : str :=
  join [nl] [lit "Question: What is 2+2?"; lit "A) 3"; lit "B) 4";
             lit "Answer: B) 4"].

(** ** Sessions, run after run *)

(** Streamlit runs the script again at every interaction and keeps the
    session store between the runs: the store after a sequence of runs. *)
Definition run_session (state : session_state) (runs : list inputs) : session_state :=
  fold_left (fun store inp => fst (main store inp)) runs state.

(** A question as the parser returns them: no field is empty and the
    invariant of the scan holds. *)
Definition well_parsed (q : Question) : Prop :=
  question q <> [] /\ options q <> [] /\ answer q <> [] /\ scan_invariant q.

(** The session store is empty or holds a quiz of at least one question, all
    of them as the parser returns them. *)
Definition store_ok (state : session_state) : Prop :=
  match state with
  | None => True
  | Some questions => questions <> [] /\ Forall well_parsed questions
  end.

(** An endpoint that answers every prompt with the same text. *)
Definition replying (result_text : str) : endpoint :=
  fun _ => post_returns (mkResponse 200 (candidates_text result_text) None).

(** ** Replies that are indented *)

(** The block with every line indented, as the format is in the prompt. *)
Definition render_indented (indent : str) (b : block) : str :=
  join [nl] (map (fun line => indent ++ line) (block_lines b)).

(** * Properties *)

(** ** Characters and strings *)

Lemma upper_char_idempotent (c : ascii) : upper_char (upper_char c) = upper_char c.
Proof. destruct c as [[] [] [] [] [] [] [] []]; reflexivity. Qed.

Lemma isspace_upper_char (c : ascii) : isspace (upper_char c) = isspace c.
Proof. destruct c as [[] [] [] [] [] [] [] []]; reflexivity. Qed.

Lemma upper_idempotent (s : str) : upper (upper s) = upper s.
Proof.
  unfold upper. rewrite map_map. apply map_ext. exact upper_char_idempotent.
Qed.

Lemma str_eqb_eq (a b : str) : str_eqb a b = true <-> a = b.
Proof.
  revert b. induction a as [|x a IH]; intros [|y b]; simpl; split; intro H;
    try reflexivity; try discriminate.
  - apply andb_true_iff in H as [Hxy Hab].
    apply Ascii.eqb_eq in Hxy. apply IH in Hab. congruence.
  - injection H as -> ->. rewrite Ascii.eqb_refl. simpl. now apply IH.
Qed.

Lemma nonempty_true {A} (l : list A) : nonempty l = true <-> l <> [].
Proof. destruct l; simpl; split; congruence. Qed.

Lemma lstrip_head (s : str) c t : lstrip s = c :: t -> isspace c = false.
Proof.
  induction s as [|x s IH]; simpl; [discriminate|].
  destruct (isspace x) eqn:Hx; [exact IH|].
  intros [= <- <-]. exact Hx.
Qed.

Lemma lstrip_suffix (s : str) :
  exists pre, s = pre ++ lstrip s /\ Forall (fun c => isspace c = true) pre.
Proof.
  induction s as [|x s (pre & Hs & Hpre)]; simpl.
  - exists []. split; [reflexivity|constructor].
  - destruct (isspace x) eqn:Hx.
    + exists (x :: pre). split; [simpl; congruence|now constructor].
    + exists []. split; [reflexivity|constructor].
Qed.

Lemma lstrip_fixed (s : str) :
  (forall c t, s = c :: t -> isspace c = false) -> lstrip s = s.
Proof.
  destruct s as [|c t]; simpl; [reflexivity|].
  intros H. now rewrite (H c t eq_refl).
Qed.

Lemma rstrip_last (s : str) c t : rstrip s = t ++ [c] -> isspace c = false.
Proof.
  unfold rstrip. intros H.
  apply (f_equal (@rev ascii)) in H.
  rewrite rev_involutive, rev_app_distr in H. simpl in H.
  exact (lstrip_head _ _ _ H).
Qed.

Lemma rstrip_prefix (s : str) :
  exists post, s = rstrip s ++ post /\ Forall (fun c => isspace c = true) post.
Proof.
  unfold rstrip. destruct (lstrip_suffix (rev s)) as (pre & Hs & Hpre).
  exists (rev pre). split.
  - rewrite <- rev_app_distr, <- Hs. now rewrite rev_involutive.
  - apply Forall_rev. exact Hpre.
Qed.

Lemma rstrip_fixed (s : str) :
  (forall c t, s = t ++ [c] -> isspace c = false) -> rstrip s = s.
Proof.
  intros H. unfold rstrip. rewrite lstrip_fixed; [apply rev_involutive|].
  intros c t Hrev. apply (H c (rev t)).
  rewrite <- (rev_involutive s), Hrev. reflexivity.
Qed.

Lemma strip_no_outer_space (s : str) : no_outer_space (strip s).
Proof.
  unfold strip. split.
  - intros c t H.
    destruct (rstrip_prefix (lstrip s)) as (post & Hpost & _).
    rewrite H in Hpost. simpl in Hpost.
    exact (lstrip_head _ _ _ Hpost).
  - intros c t H. exact (rstrip_last _ _ _ H).
Qed.

Lemma strip_fixed (s : str) : no_outer_space s -> strip s = s.
Proof.
  intros [Hhead Hlast]. unfold strip.
  rewrite (lstrip_fixed s Hhead). exact (rstrip_fixed s Hlast).
Qed.

Lemma upper_no_outer_space (s : str) : no_outer_space s -> no_outer_space (upper s).
Proof.
  intros [Hhead Hlast]. unfold upper. split.
  - intros c t H. destruct s as [|x s']; [discriminate|].
    simpl in H. injection H as <- _.
    rewrite isspace_upper_char. exact (Hhead x s' eq_refl).
  - intros c t H.
    assert (Hs : s <> []) by (intros ->; destruct t; discriminate).
    destruct (exists_last Hs) as (s' & x & ->).
    rewrite map_app in H. simpl in H.
    apply app_inj_tail in H as [_ <-].
    rewrite isspace_upper_char. exact (Hlast x s' eq_refl).
Qed.

(** ** The parser as a filter *)

Lemma fold_append_filter {A B} (f : A -> B) (keep : B -> bool) (l : list A) (acc : list B) :
  fold_left (fun out a => if keep (f a) then out ++ [f a] else out) l acc
  = acc ++ filter keep (map f l).
Proof.
  revert acc. induction l as [|a l IH]; intros acc; simpl.
  - now rewrite app_nil_r.
  - rewrite IH. destruct (keep (f a)); [now rewrite <- app_assoc|reflexivity].
Qed.

Lemma parse_questions_filter (raw_text : str) :
  parse_questions raw_text = filter accepted (map scan_block (blocks_of raw_text)).
Proof.
  unfold parse_questions.
  exact (fold_append_filter scan_block accepted (blocks_of raw_text) []).
Qed.

Lemma accepted_minimal_check (q : Question) : accepted q = minimal_check q.
Proof.
  unfold accepted, minimal_check.
  destruct (question q), (options q), (answer q); reflexivity.
Qed.

Lemma re_match_option_shaped (o : str) : re_match_option o = true -> option_shaped o.
Proof.
  destruct o as [|c1 [|c2 rest]]; simpl; try discriminate.
  intros H. apply andb_true_iff in H as [H1 H2].
  exists c1, c2, rest. split; [reflexivity|]. split.
  - destruct c1 as [[] [] [] [] [] [] [] []]; try discriminate H1;
      simpl; intuition.
  - unfold close_or_dot in H2. apply orb_true_iff in H2 as [H2|H2];
      apply Ascii.eqb_eq in H2; subst; simpl; intuition.
Qed.

Lemma no_outer_space_nil : no_outer_space [].
Proof.
  split; intros c t H; [discriminate|destruct t; discriminate].
Qed.

Lemma scan_line_invariant (q : Question) (line : str) :
  scan_invariant q -> scan_invariant (scan_line q line).
Proof.
  intros (Hq & Ho & Ha & Hu). unfold scan_line.
  destruct (startswith (lit "Question:") line).
  { split; [apply strip_no_outer_space|]. split; [exact Ho|]. now split. }
  destruct (re_match_option (strip line)) eqn:Hre.
  { split; [exact Hq|]. split; [|now split].
    apply Forall_app. split; [assumption|].
    constructor; [now apply re_match_option_shaped|constructor]. }
  destruct (startswith (lit "Answer:") line).
  { split; [exact Hq|]. split; [exact Ho|]. split.
    - apply upper_no_outer_space, strip_no_outer_space.
    - apply upper_idempotent. }
  split; [exact Hq|]. split; [exact Ho|]. now split.
Qed.

Lemma scan_block_invariant (block : str) : scan_invariant (scan_block block).
Proof.
  unfold scan_block.
  assert (H : scan_invariant empty_q_data).
  { split; [apply no_outer_space_nil|]. split; [constructor|].
    split; [apply no_outer_space_nil|reflexivity]. }
  revert H. generalize empty_q_data.
  induction (split [nl] (strip block)) as [|line lines IH]; intros q Hq; simpl.
  - exact Hq.
  - apply IH, scan_line_invariant, Hq.
Qed.

Lemma in_parse_questions (raw_text : str) (q : Question) :
  In q (parse_questions raw_text) <->
  exists block, In block (blocks_of raw_text) /\ scan_block block = q /\ accepted q = true.
Proof.
  rewrite parse_questions_filter, filter_In, in_map_iff. split.
  - intros [(block & Heq & Hin) Hacc]. now exists block.
  - intros (block & Hin & Heq & Hacc). split; [now exists block|assumption].
Qed.

(** ** The claims about the parser *)

(** C2: the questions returned are, in order, the scanned blocks that pass the
    minimal check (non-empty question text, at least one option line, non-empty
    answer) and no others; nothing about the number of options or about the
    answer matching an option label enters the test, so a block passing the
    check is returned whatever they are, and a block failing it leaves
    nothing in the result.  A block with two options is returned, so is one
    whose answer "E" names no option, and a block without an "Answer:" line
    is dropped. *)
Theorem parse_questions_minimal_check (raw_text : str) :
  parse_questions raw_text
    = filter minimal_check (map scan_block (blocks_of raw_text))
  /\ (forall block, In block (blocks_of raw_text) ->
        (In (scan_block block) (parse_questions raw_text)
         <-> question (scan_block block) <> []
             /\ 1 <= length (options (scan_block block))
             /\ answer (scan_block block) <> []))
  /\ (forall q, In q (parse_questions raw_text) -> minimal_check q = true)
  /\ parse_questions raw_two_options = [q_two_options]
  /\ parse_questions raw_unmatched = [q_unmatched]
  /\ parse_questions raw_no_answer = [].
Proof.
  assert (Heq : parse_questions raw_text
                = filter minimal_check (map scan_block (blocks_of raw_text))).
  { rewrite parse_questions_filter. apply filter_ext, accepted_minimal_check. }
  split; [exact Heq|]. split.
  - intros block Hin. rewrite Heq, filter_In. unfold minimal_check.
    rewrite !andb_true_iff, !negb_true_iff, Nat.leb_le. split.
    + intros (_ & (Hq & Ho) & Ha). repeat split; try assumption.
      * intros E. rewrite E in Hq. discriminate.
      * intros E. rewrite E in Ha. discriminate.
    + intros (Hq & Ho & Ha). split; [now apply in_map|]. repeat split.
      * destruct (question (scan_block block)); [congruence|reflexivity].
      * exact Ho.
      * destruct (answer (scan_block block)); [congruence|reflexivity].
  - split; [|repeat split; vm_compute; reflexivity].
    intros q Hq. rewrite Heq in Hq. now apply filter_In in Hq.
Qed.

(** C9: the parser is a total function: on every input it yields a list of
    questions, never longer than the list of blocks, and on the empty string
    it yields the empty list. *)
Theorem parse_questions_total :
  parse_questions [] = []
  /\ forall raw_text, exists questions,
       parse_questions raw_text = questions
       /\ length questions <= length (blocks_of raw_text).
Proof.
  split; [reflexivity|].
  intros raw_text. exists (parse_questions raw_text). split; [reflexivity|].
  rewrite parse_questions_filter.
  etransitivity; [apply filter_length_le|]. now rewrite length_map.
Qed.

(** C10: every question returned by the parser has a non-empty question text
    without outer whitespace, a non-empty list of options each beginning with
    a letter A-D followed by a closing parenthesis or a full stop, and a
    non-empty answer without outer whitespace that equals its own
    uppercasing. *)
Theorem parsed_question_invariant (raw_text : str) (q : Question) :
  In q (parse_questions raw_text) ->
  question q <> [] /\ no_outer_space (question q)
  /\ options q <> [] /\ Forall option_shaped (options q)
  /\ answer q <> [] /\ no_outer_space (answer q) /\ upper (answer q) = answer q.
Proof.
  intros Hin. apply in_parse_questions in Hin as (block & _ & <- & Hacc).
  destruct (scan_block_invariant block) as (Hq & Ho & Ha & Hu).
  unfold accepted in Hacc. rewrite !andb_true_iff, !nonempty_true in Hacc.
  destruct Hacc as ((Hq' & Ho') & Ha'). now repeat (split; [assumption|]).
Qed.

Lemma parsed_question_invariant_witness :
  question q_two_options <> [] /\ no_outer_space (question q_two_options)
  /\ options q_two_options <> [] /\ Forall option_shaped (options q_two_options)
  /\ answer q_two_options <> [] /\ no_outer_space (answer q_two_options)
  /\ upper (answer q_two_options) = answer q_two_options.
Proof.
  refine (parsed_question_invariant raw_two_options q_two_options _).
  vm_compute. left. reflexivity.
Defined.

Lemma startswith_app (sub rest : str) : startswith sub (sub ++ rest) = true.
Proof.
  induction sub as [|c sub IH]; simpl; [reflexivity|].
  now rewrite Ascii.eqb_refl.
Qed.

Lemma contains_app (sub before after : str) :
  contains sub (before ++ sub ++ after) = true.
Proof.
  induction before as [|c before IH].
  - destruct sub; simpl; [now destruct after|].
    now rewrite Ascii.eqb_refl, startswith_app.
  - simpl. rewrite IH. apply orb_true_r.
Qed.

(** ** Splitting and replacing *)

Lemma startswith_true (p s : str) :
  startswith p s = true -> exists rest, s = p ++ rest.
Proof.
  revert s. induction p as [|x p IH]; intros s H.
  - now exists s.
  - destruct s as [|y s]; [discriminate|]. simpl in H.
    apply andb_true_iff in H as [Hxy Hp]. apply Ascii.eqb_eq in Hxy. subst y.
    destruct (IH s Hp) as [rest ->]. now exists rest.
Qed.

Lemma split_from_skip (sep pre rest : str) :
  split_from sep (length pre) (pre ++ rest) = split_from sep 0 rest.
Proof.
  induction pre as [|c pre IH]; [reflexivity|exact IH].
Qed.

Lemma split_at_sep (c : ascii) (sep rest : str) :
  split (c :: sep) ((c :: sep) ++ rest) = [] :: split (c :: sep) rest.
Proof.
  unfold split. cbn [split_from app].
  change (startswith (c :: sep) (c :: sep ++ rest))
    with (startswith (c :: sep) ((c :: sep) ++ rest)).
  rewrite startswith_app.
  replace (length (c :: sep) - 1) with (length sep) by (simpl; lia).
  now rewrite split_from_skip.
Qed.

Lemma split_no_sep (sep : str) (c : ascii) (s : str) :
  startswith sep (c :: s) = false ->
  split sep (c :: s) = add_first c (split sep s).
Proof.
  intros H. unfold split. cbn [split_from]. now rewrite H.
Qed.

Lemma clean_tail (sep : str) (c : ascii) (p : str) :
  clean sep (c :: p) -> clean sep p.
Proof.
  intros H pre x post tail ->. apply (H (c :: pre) x post tail). reflexivity.
Qed.

Lemma split_piece (c0 : ascii) (sep p rest : str) :
  clean (c0 :: sep) p ->
  split (c0 :: sep) (p ++ (c0 :: sep) ++ rest) = p :: split (c0 :: sep) rest.
Proof.
  induction p as [|c p IH]; intros Hclean.
  - apply split_at_sep.
  - change ((c :: p) ++ (c0 :: sep) ++ rest) with (c :: (p ++ (c0 :: sep) ++ rest)).
    rewrite split_no_sep.
    + rewrite IH by (eapply clean_tail; eassumption). reflexivity.
    + apply (Hclean [] c p ((c0 :: sep) ++ rest)). reflexivity.
Qed.

Lemma split_last (sep p : str) : clean sep p -> split sep p = [p].
Proof.
  induction p as [|c p IH]; intros Hclean; [reflexivity|].
  rewrite split_no_sep.
  - rewrite IH by (eapply clean_tail; eassumption). reflexivity.
  - rewrite <- (app_nil_r p). apply (Hclean [] c p []). reflexivity.
Qed.

Lemma split_join (c0 : ascii) (sep : str) (pieces : list str) :
  pieces <> [] -> Forall (clean (c0 :: sep)) pieces ->
  split (c0 :: sep) (join (c0 :: sep) pieces) = pieces.
Proof.
  induction pieces as [|p [|p' pieces] IH]; intros Hne Hall; [congruence| |].
  - apply split_last. now inversion Hall.
  - change (join (c0 :: sep) (p :: p' :: pieces))
      with (p ++ (c0 :: sep) ++ join (c0 :: sep) (p' :: pieces)).
    inversion Hall as [|? ? Hp Hrest]; subst.
    rewrite split_piece by exact Hp. f_equal. apply IH; [discriminate|exact Hrest].
Qed.




(** ** Lines and paragraphs *)

Lemma clean_nl (p : str) : nl_free p -> clean [nl] p.
Proof.
  intros Hfree pre c post tail ->. cbn [startswith app].
  destruct (Ascii.eqb nl c) eqn:E; [|reflexivity].
  apply Ascii.eqb_eq in E. subst c. exfalso. apply Hfree.
  apply in_or_app. right. now left.
Qed.

Lemma clean_nl_nl (p : str) : paragraph p -> clean [nl; nl] p.
Proof.
  intros Hpar pre c post tail Hp. cbn [startswith].
  destruct (Ascii.eqb nl c) eqn:E; [|reflexivity].
  apply Ascii.eqb_eq in E. subst c.
  destruct (Hpar pre post Hp) as (c' & post' & -> & Hc').
  cbn [app]. destruct (Ascii.eqb nl c') eqn:E'; [|reflexivity].
  apply Ascii.eqb_eq in E'. congruence.
Qed.

Lemma paragraph_line (l : str) : nl_free l -> paragraph l.
Proof.
  intros Hfree pre post ->. exfalso. apply Hfree.
  apply in_or_app. right. now left.
Qed.

Lemma paragraph_app (l : str) (c : ascii) (rest : str) :
  nl_free l -> c <> nl -> paragraph (c :: rest) ->
  paragraph (l ++ nl :: c :: rest).
Proof.
  intros Hfree Hc Hrest. induction l as [|a l IH]; intros pre post Heq.
  - destruct pre as [|x pre]; cbn [app] in Heq.
    + injection Heq as <-. now exists c, rest.
    + injection Heq as _ Heq. exact (Hrest pre post Heq).
  - destruct pre as [|x pre]; cbn [app] in Heq.
    + injection Heq as -> _. exfalso. apply Hfree. now left.
    + injection Heq as _ Heq. apply (IH (fun H => Hfree (or_intror H)) pre post Heq).
Qed.

Lemma paragraph_join (lines : list str) :
  Forall (fun l => l <> [] /\ nl_free l) lines ->
  paragraph (join [nl] lines).
Proof.
  induction lines as [|l [|l' lines] IH]; intros Hall.
  - intros pre post H. destruct pre; discriminate.
  - inversion Hall as [|? ? [_ Hl] _]; subst. now apply paragraph_line.
  - inversion Hall as [|? ? [_ Hl] Hrest]; subst.
    specialize (IH Hrest).
    change (join [nl] (l :: l' :: lines)) with (l ++ nl :: join [nl] (l' :: lines)).
    inversion Hrest as [|? ? [Hne' Hl'] _]; subst.
    destruct l' as [|c l']; [congruence|].
    match goal with
    | |- paragraph (l ++ nl :: ?j) =>
        assert (Hjoin : exists t, j = c :: t)
          by (destruct lines; eexists; reflexivity);
        destruct Hjoin as [t Ht];
        assert (IH' : paragraph (c :: t)) by (rewrite <- Ht; exact IH);
        rewrite Ht
    end.
    apply paragraph_app; [exact Hl| |exact IH'].
    intros ->. apply Hl'. now left.
Qed.

(** ** Stripping *)

Lemma lstrip_app_single (l : str) (c : ascii) :
  lstrip (l ++ [c])
  = match lstrip l with
    | [] => if isspace c then [] else [c]
    | _ :: _ => lstrip l ++ [c]
    end.
Proof.
  induction l as [|a l IH]; cbn [app lstrip]; [reflexivity|].
  destruct (isspace a); [exact IH|reflexivity].
Qed.

Lemma rstrip_cons (c : ascii) (s : str) :
  rstrip (c :: s)
  = match rstrip s with
    | [] => if isspace c then [] else [c]
    | _ :: _ => c :: rstrip s
    end.
Proof.
  unfold rstrip. cbn [rev]. rewrite lstrip_app_single.
  destruct (lstrip (rev s)) as [|a l] eqn:E.
  - cbn [rev]. now destruct (isspace c).
  - rewrite rev_app_distr. cbn [rev app].
    destruct (rev l ++ [a]) eqn:E'; [|reflexivity].
    destruct (rev l); discriminate.
Qed.

Lemma strip_keeps_two (c1 c2 : ascii) (rest : str) :
  isspace c1 = false -> isspace c2 = false ->
  exists rest', strip (c1 :: c2 :: rest) = c1 :: c2 :: rest'.
Proof.
  intros H1 H2. unfold strip. cbn [lstrip]. rewrite H1.
  rewrite (rstrip_cons c1), (rstrip_cons c2), H2.
  destruct (rstrip rest); eexists; reflexivity.
Qed.

(** ** Replies that follow the grammar *)

Lemma nl_free_app (a b : str) : nl_free a -> nl_free b -> nl_free (a ++ b).
Proof.
  intros Ha Hb Hin. apply in_app_or in Hin as [H|H]; [exact (Ha H)|exact (Hb H)].
Qed.

Lemma letter_not_nl (c : ascii) : In c (lit "ABCD") -> nl_free [c].
Proof.
  intros Hc [H|[]]. subst c. simpl in Hc.
  destruct Hc as [H|[H|[H|[H|[]]]]]; discriminate.
Qed.

Lemma block_lines_ok (b : block) :
  follows_grammar b ->
  Forall (fun l => l <> [] /\ nl_free l) (block_lines b).
Proof.
  intros (_ & Ht & Ha & Hb & Hc & Hd & Hl). unfold block_lines.
  repeat constructor; try discriminate;
    apply nl_free_app; try assumption;
    try (now apply letter_not_nl);
    intros Hin; simpl in Hin;
    repeat (destruct Hin as [Hin|Hin]; [discriminate|]); exact Hin.
Qed.


Lemma isspace_letter (c : ascii) : In c (lit "ABCD") -> isspace c = false.
Proof. simpl. intros [<-|[<-|[<-|[<-|[]]]]]; reflexivity. Qed.












Lemma nl_free_check (s : str) : existsb (Ascii.eqb nl) s = false -> nl_free s.
Proof.
  intros Hs Hin.
  assert (Hex : existsb (Ascii.eqb nl) s = true).
  { apply existsb_exists. exists nl. split; [exact Hin|apply Ascii.eqb_refl]. }
  congruence.
Qed.


(** ** The grading loop *)

Lemma collect_from (selections : list (option str)) (indices : list nat)
    (all_answered : bool) (selected_answers : list (option str)) :
  fold_left (collect_step selections) indices (all_answered, selected_answers)
  = (all_answered && forallb answered (map (radio selections) indices),
     selected_answers
       ++ map (fun v => if answered v then Some (label_of v) else None)
            (map (radio selections) indices)).
Proof.
  revert all_answered selected_answers.
  induction indices as [|i indices IH]; intros b acc; simpl.
  - now rewrite andb_true_r, app_nil_r.
  - destruct (radio selections i) as [[|c rest]|] eqn:Hi; simpl;
      rewrite IH, <- app_assoc; simpl;
      now rewrite ?andb_false_r, ?andb_true_r.
Qed.

Lemma collect_spec (questions : list Question) (selections : list (option str)) :
  collect questions selections
  = (forallb answered (widget_values questions selections),
     map (fun v => if answered v then Some (label_of v) else None)
       (widget_values questions selections)).
Proof. unfold collect. now rewrite collect_from. Qed.

Lemma all_answered_labels (values : list (option str)) :
  forallb answered values = true ->
  map (fun v => if answered v then Some (label_of v) else None) values
  = map Some (map label_of values).
Proof.
  induction values as [|v values IH]; simpl; [reflexivity|].
  intros H. apply andb_true_iff in H as [Hv Hvs].
  now rewrite Hv, IH.
Qed.

Lemma grade_from (questions : list Question) (labels : list str) :
  forall k score out,
    fold_left grade_step
      (combine (seq k (length (combine questions (map Some labels))))
               (combine questions (map Some labels)))
      (Ok (score, out))
    = Ok (score + count_correct questions labels, out ++ reports k questions labels).
Proof.
  revert labels.
  induction questions as [|q questions IH]; intros [|label labels] k score out;
    simpl; try now rewrite Nat.add_0_r, app_nil_r.
  unfold report, is_correct.
  destruct (str_eqb (upper label) (answer q)); rewrite IH, <- app_assoc;
    do 2 f_equal; lia.
Qed.

Lemma grade_spec (questions : list Question) (labels : list str) :
  grade questions (map Some labels)
  = Ok (count_correct questions labels, reports 0 questions labels).
Proof. unfold grade, enumerate. now rewrite grade_from. Qed.

(** A submission in which every widget holds an answer is graded, and this is
    its output. *)
Lemma display_quiz_graded (questions : list Question) (selections : list (option str)) :
  forallb answered (widget_values questions selections) = true ->
  display_quiz questions selections true
  = Ok (graded_output questions (map label_of (widget_values questions selections))).
Proof.
  intros Hall. unfold display_quiz.
  rewrite collect_spec, Hall, (all_answered_labels _ Hall), grade_spec.
  reflexivity.
Qed.

(** A submission with a widget left empty is turned down. *)
Lemma display_quiz_rejected (questions : list Question) (selections : list (option str)) :
  forallb answered (widget_values questions selections) = false ->
  display_quiz questions selections true
  = Ok [st_subheader (lit "Quiz"); st_warning msg_answer_all].
Proof.
  intros Hall. unfold display_quiz. now rewrite collect_spec, Hall.
Qed.

Lemma display_quiz_no_crash (questions : list Question)
    (selections : list (option str)) (submitted : bool) :
  exists out, display_quiz questions selections submitted = Ok out.
Proof.
  destruct submitted.
  - destruct (forallb answered (widget_values questions selections)) eqn:Hall.
    + eexists. now apply display_quiz_graded.
    + eexists. now apply display_quiz_rejected.
  - unfold display_quiz. rewrite collect_spec. now eexists.
Qed.

Lemma widget_values_chosen (questions : list Question) (chosen : list str) :
  length chosen = length questions ->
  widget_values questions (map Some chosen) = map Some chosen.
Proof.
  intros Hlen. unfold widget_values, radio. rewrite <- Hlen. clear Hlen.
  induction chosen as [|c chosen IH]; simpl; [reflexivity|].
  f_equal. rewrite <- seq_shift, map_map. exact IH.
Qed.

Lemma count_correct_filter (questions : list Question) (labels : list str) :
  count_correct questions labels
  = length (filter (fun '(q, label) => str_eqb (upper label) (answer q))
              (combine questions labels)).
Proof.
  revert labels.
  induction questions as [|q questions IH]; intros [|label labels]; simpl;
    try reflexivity.
  rewrite IH. unfold is_correct.
  now destruct (str_eqb (upper label) (answer q)).
Qed.

Lemma chosen_answered (chosen : list str) :
  Forall (fun opt => opt <> []) chosen ->
  forallb answered (map Some chosen) = true
  /\ map label_of (map Some chosen) = map (firstn 1) chosen.
Proof.
  induction 1 as [|opt chosen Hopt _ [IH1 IH2]]; simpl; [now split|].
  destruct opt as [|c rest]; [congruence|]. simpl. rewrite IH1, IH2. now split.
Qed.

Lemma unmatched_not_found (q : Question) :
  unmatched q -> correct_option_of q = lit "Not found".
Proof.
  intros Hq. unfold correct_option_of.
  destruct (find (startswith (answer q)) (options q)) as [opt|] eqn:Hfind;
    [|reflexivity].
  apply find_some in Hfind as [Hin Hstart].
  rewrite (Hq opt Hin) in Hstart. discriminate.
Qed.

Lemma upper_char_A_D (c : ascii) : In c (lit "ABCD") -> upper_char c = c.
Proof.
  simpl. intros [<-|[<-|[<-|[<-|[]]]]]; reflexivity.
Qed.

Lemma startswith_head (c : ascii) (rest : str) : startswith [c] (c :: rest) = true.
Proof. simpl. now rewrite Ascii.eqb_refl. Qed.

(** ** The claims about grading *)

(** C3: when an option is chosen for every question, the submission is
    graded: question i is reported correct exactly when the chosen label,
    uppercased, equals its stored answer, the score shown is the number of
    such matches and the denominator is the number of questions.  A one
    question quiz with answer "B" gives 1/1 and the top message for the label
    "B", and 0/1 and the low message for the label "A". *)
Theorem grading_counts_matches (questions : list Question) (chosen : list str) :
  length chosen = length questions ->
  Forall (fun opt => opt <> []) chosen ->
  display_quiz questions (map Some chosen) true
    = Ok (graded_output questions (map (firstn 1) chosen))
  /\ count_correct questions (map (firstn 1) chosen)
     = length (filter (fun '(q, label) => str_eqb (upper label) (answer q))
                 (combine questions (map (firstn 1) chosen)))
  /\ (forall text opts rest,
        display_quiz [mkQuestion text opts (lit "B")] [Some (lit "B" ++ rest)] true
        = Ok ([st_subheader (lit "Quiz"); st_subheader (lit "Quiz Results");
               st_success (lit "Q1: Correct (Your Answer: B)");
               st_markdown (lit "Final Score: 1/1");
               st_balloons; st_success msg_top] ++ closing))
  /\ (forall text opts rest,
        display_quiz [mkQuestion text opts (lit "B")] [Some (lit "A" ++ rest)] true
        = Ok ([st_subheader (lit "Quiz"); st_subheader (lit "Quiz Results");
               st_error (lit "Q1: Incorrect (Your Answer: A)");
               st_info (msg_correct_answer
                          (correct_option_of (mkQuestion text opts (lit "B"))));
               st_markdown (lit "Final Score: 0/1");
               st_warning msg_low] ++ closing)).
Proof.
  intros Hlen Hchosen.
  destruct (chosen_answered chosen Hchosen) as [Hall Hlabels].
  split; [|split; [apply count_correct_filter|split; reflexivity]].
  rewrite display_quiz_graded; rewrite widget_values_chosen by exact Hlen;
    [now rewrite Hlabels|exact Hall].
Qed.

Lemma grading_counts_matches_witness :
  display_quiz [q_unmatched; mkQuestion (lit "2+2?") [lit "A) 3"; lit "B) 4"] (lit "B")]
    (map Some [lit "A) Paris"; lit "B) 4"]) true
  = Ok (graded_output
          [q_unmatched; mkQuestion (lit "2+2?") [lit "A) 3"; lit "B) 4"] (lit "B")]
          (map (firstn 1) [lit "A) Paris"; lit "B) 4"])).
Proof.
  refine (proj1 (grading_counts_matches
                   [q_unmatched; mkQuestion (lit "2+2?") [lit "A) 3"; lit "B) 4"] (lit "B")]
                   [lit "A) Paris"; lit "B) 4"] _ _)).
  - reflexivity.
  - repeat constructor; discriminate.
Defined.

(** C7: a submission with no option chosen for some question is turned down
    as a whole: the only output of the quiz is its heading and the warning to
    answer all questions, nothing is graded, and the session store still holds
    the same questions. *)
Theorem incomplete_submission_rejected
    (questions : list Question) (widgets : list (option str)) (i : nat) :
  i < length questions ->
  radio widgets i = None ->
  display_quiz questions widgets true
    = Ok [st_subheader (lit "Quiz"); st_warning msg_answer_all]
  /\ forall inp,
       generate inp = false -> selections inp = widgets -> submitted inp = true ->
       main (Some questions) inp
       = (Some questions,
          Ok (heading ++ [st_subheader (lit "Quiz"); st_warning msg_answer_all])).
Proof.
  intros Hi Hnone.
  assert (Hrej : display_quiz questions widgets true
                 = Ok [st_subheader (lit "Quiz"); st_warning msg_answer_all]).
  { apply display_quiz_rejected.
    destruct (forallb answered (widget_values questions widgets)) eqn:Hall;
      [|reflexivity].
    rewrite forallb_forall in Hall.
    assert (Hin : In (radio widgets i) (widget_values questions widgets)).
    { unfold widget_values. apply in_map, in_seq. lia. }
    apply Hall in Hin. rewrite Hnone in Hin. discriminate. }
  split; [exact Hrej|].
  intros inp Hgen Hsel Hsub. unfold main, show_quiz.
  now rewrite Hgen, Hsel, Hsub, Hrej.
Qed.

Lemma incomplete_submission_rejected_witness :
  display_quiz [q_unmatched; q_unmatched] [Some (lit "A) Paris"); None] true
  = Ok [st_subheader (lit "Quiz"); st_warning msg_answer_all].
Proof.
  refine (proj1 (incomplete_submission_rejected [q_unmatched; q_unmatched]
                   [Some (lit "A) Paris"); None] 1 _ _)).
  - simpl. lia.
  - reflexivity.
Defined.

(** C8, as the code has it: a question whose answer is the beginning of none
    of its options never aborts the grading and is not left out of the
    scoring.  Every submission yields an output; a complete one is graded
    over all the questions, so the denominator is their number; such a
    question is reported with the text "Not found" for its correct answer
    unless the label equals the answer, and when its options have the shape
    the parser captures no label chosen among them does. *)
Theorem unmatched_answer_is_graded
    (questions : list Question) (widgets : list (option str)) :
  (forall submitted, exists out, display_quiz questions widgets submitted = Ok out)
  /\ (forallb answered (widget_values questions widgets) = true ->
      display_quiz questions widgets true
      = Ok ([st_subheader (lit "Quiz"); st_subheader (lit "Quiz Results")]
            ++ reports 0 questions (map label_of (widget_values questions widgets))
            ++ [st_markdown
                  (msg_final_score
                     (count_correct questions
                        (map label_of (widget_values questions widgets)))
                     (length questions))]
            ++ encouragement
                 (count_correct questions
                    (map label_of (widget_values questions widgets)))
                 (length questions)
            ++ closing))
  /\ (forall i q label,
        unmatched q -> is_correct q label = false ->
        report i q label
        = [st_error (msg_incorrect i label);
           st_info (lit "Correct Answer: Not found")])
  /\ (forall q opt,
        unmatched q -> Forall option_shaped (options q) -> In opt (options q) ->
        is_correct q (label_of (Some opt)) = false).
Proof.
  split; [intros sub; apply display_quiz_no_crash|].
  split; [apply display_quiz_graded|]. split.
  - intros i q label Hq Hwrong. unfold report.
    now rewrite Hwrong, (unmatched_not_found q Hq).
  - intros q opt Hq Hshape Hin.
    rewrite Forall_forall in Hshape.
    destruct (Hshape opt Hin) as (c1 & c2 & rest & -> & Hc1 & _).
    unfold is_correct.
    change (upper (label_of (Some (c1 :: c2 :: rest)))) with [upper_char c1].
    destruct (str_eqb [upper_char c1] (answer q)) eqn:Heq; [|reflexivity].
    apply str_eqb_eq in Heq. rewrite (upper_char_A_D c1 Hc1) in Heq.
    specialize (Hq _ Hin). rewrite <- Heq, startswith_head in Hq. discriminate.
Qed.

Lemma unmatched_q_unmatched : unmatched q_unmatched.
Proof.
  intros opt [<-|[<-|[]]]; reflexivity.
Qed.

Lemma unmatched_answer_is_graded_witness :
  display_quiz [q_unmatched] chosen_unmatched true
  = Ok ([st_subheader (lit "Quiz"); st_subheader (lit "Quiz Results");
         st_error (lit "Q1: Incorrect (Your Answer: A)");
         st_info (lit "Correct Answer: Not found");
         st_markdown (lit "Final Score: 0/1");
         st_warning msg_low] ++ closing)
  /\ is_correct q_unmatched (label_of (Some (lit "B) Rome"))) = false.
Proof.
  split.
  - exact (proj1 (proj2 (unmatched_answer_is_graded [q_unmatched] chosen_unmatched))
             eq_refl).
  - apply (proj2 (proj2 (proj2 (unmatched_answer_is_graded [q_unmatched] chosen_unmatched)))
             q_unmatched (lit "B) Rome") unmatched_q_unmatched).
    + repeat constructor; do 3 eexists; (split; [reflexivity|]); simpl; intuition.
    + simpl. intuition.
Defined.

(** C8, as it is stated, fails: the only question of this quiz has an answer
    that matches none of its options, so the denominator asked for is 0, yet
    the quiz is scored 0/1. *)
Lemma unmatched_answer_in_denominator :
  scored_total [q_unmatched] = 0
  /\ display_quiz [q_unmatched] chosen_unmatched true
     = Ok ([st_subheader (lit "Quiz"); st_subheader (lit "Quiz Results");
            st_error (lit "Q1: Incorrect (Your Answer: A)");
            st_info (lit "Correct Answer: Not found");
            st_markdown (lit "Final Score: 0/1");
            st_warning msg_low] ++ closing)
  /\ msg_final_score 0 1 <> msg_final_score 0 (scored_total [q_unmatched]).
Proof.
  split; [reflexivity|]. split; [reflexivity|]. discriminate.
Qed.

(** ** Products with a binary64 constant

    [len(questions) * 0.7] is rounded; the lemmas below follow the rounding of
    the Standard Library's [SFmul] far enough to compare the product with an
    integer. *)

Module Binary64.

Local Open Scope Z_scope.

Lemma iter_pos_nat {A} (f : A -> A) (p : positive) (x : A) :
  SpecFloat.iter_pos f p x = Nat.iter (Pos.to_nat p) f x.
Proof.
  revert x. induction p as [p IH|p IH|]; intros x; simpl SpecFloat.iter_pos.
  - rewrite !IH, Pos2Nat.inj_xI, <- Nat.iter_add, Nat.iter_succ_r.
    f_equal. lia.
  - rewrite !IH, Pos2Nat.inj_xO, <- Nat.iter_add. f_equal. lia.
  - reflexivity.
Qed.

Lemma shr_1_nonneg (m : Z) (r s : bool) :
  0 <= m ->
  shr_1 (Build_shr_record m r s) = Build_shr_record (m / 2) (Z.odd m) (r || s).
Proof.
  intros Hm. rewrite <- Z.div2_div.
  destruct m as [|[p|p|]|p]; try reflexivity. lia.
Qed.

Lemma half_step (M H : Z) :
  0 <= M -> 0 < H ->
  M / (2 * H) = M / H / 2
  /\ M mod (2 * H) = M mod H + H * (if Z.odd (M / H) then 1 else 0).
Proof.
  intros HM HH.
  assert (Hdiv : M = H * (M / H) + M mod H) by (apply Z.div_mod; lia).
  assert (Hmod : 0 <= M mod H < H) by (apply Z.mod_pos_bound; lia).
  assert (Hdiv2 : M / H = 2 * (M / H / 2) + (M / H) mod 2) by (apply Z.div_mod; lia).
  rewrite Zmod_odd in Hdiv2.
  set (b := if Z.odd (M / H) then 1 else 0) in *.
  assert (Hb : 0 <= b <= 1) by (unfold b; destruct (Z.odd (M / H)); lia).
  assert (Heq : M = (M / H / 2) * (2 * H) + (M mod H + H * b)) by nia.
  assert (Hr : 0 <= M mod H + H * b < 2 * H) by nia.
  split.
  - symmetry. apply (Z.div_unique_pos M (2 * H) (M / H / 2) (M mod H + H * b)); lia.
  - symmetry. apply (Z.mod_unique_pos M (2 * H) (M / H / 2) (M mod H + H * b)); lia.
Qed.

Lemma shr_iter (M : Z) (n : nat) :
  0 <= M ->
  Nat.iter (S n) shr_1 (Build_shr_record M false false)
  = Build_shr_record (M / 2 ^ Z.of_nat (S n))
      (Z.odd (M / 2 ^ Z.of_nat n))
      (negb (M mod 2 ^ Z.of_nat n =? 0)).
Proof.
  intros HM. induction n as [|n IH].
  - unfold Nat.iter, nat_rect. rewrite shr_1_nonneg by lia.
    change (2 ^ Z.of_nat 1) with 2. change (2 ^ Z.of_nat 0) with 1.
    now rewrite Z.div_1_r, Z.mod_1_r.
  - rewrite Nat.iter_succ, IH.
    assert (Hpow : 0 < 2 ^ Z.of_nat n) by (apply Z.pow_pos_nonneg; lia).
    rewrite shr_1_nonneg by (apply Z.div_pos; [lia|apply Z.pow_pos_nonneg; lia]).
    assert (Hs : 2 ^ Z.of_nat (S n) = 2 * 2 ^ Z.of_nat n)
      by (rewrite Nat2Z.inj_succ, Z.pow_succ_r; lia).
    assert (Hss : 2 ^ Z.of_nat (S (S n)) = 2 * 2 ^ Z.of_nat (S n))
      by (rewrite (Nat2Z.inj_succ (S n)), Z.pow_succ_r; lia).
    destruct (half_step M (2 ^ Z.of_nat n) HM Hpow) as [Hq Hr].
    assert (Hpow' : 0 < 2 ^ Z.of_nat (S n)) by lia.
    destruct (half_step M (2 ^ Z.of_nat (S n)) HM Hpow') as [Hq' _].
    rewrite Hss, Hq'. f_equal.
    rewrite Hs, Hr.
    assert (Hmod : 0 <= M mod 2 ^ Z.of_nat n < 2 ^ Z.of_nat n)
      by (apply Z.mod_pos_bound; lia).
    destruct (Z.odd (M / 2 ^ Z.of_nat n)); simpl.
    + symmetry. apply negb_true_iff, Z.eqb_neq. lia.
    + rewrite Z.mul_0_r, Z.add_0_r. reflexivity.
Qed.

Lemma shr_exact (M e k : Z) :
  0 <= M -> 0 < k ->
  shr (Build_shr_record M false false) e k
  = (Build_shr_record (M / 2 ^ k) (Z.odd (M / 2 ^ (k - 1)))
       (negb (M mod 2 ^ (k - 1) =? 0)),
     e + k).
Proof.
  intros HM Hk. destruct k as [|p|p]; try lia. unfold shr.
  rewrite iter_pos_nat. destruct (Pos2Nat.is_succ p) as [n Hn].
  rewrite Hn, shr_iter by lia.
  replace (Z.of_nat (S n)) with (Z.pos p) by lia.
  replace (Z.of_nat n) with (Z.pos p - 1) by lia.
  reflexivity.
Qed.

Lemma round_shr (M e k : Z) :
  0 <= M -> 0 < k ->
  nearest M k
    (round_nearest_even
       (shr_m (fst (shr (Build_shr_record M false false) e k)))
       (loc_of_shr_record (fst (shr (Build_shr_record M false false) e k)))).
Proof.
  intros HM Hk. rewrite shr_exact by assumption. cbn [fst shr_m].
  assert (Hpow : 0 < 2 ^ (k - 1)) by (apply Z.pow_pos_nonneg; lia).
  assert (Hk2 : 2 ^ k = 2 * 2 ^ (k - 1)).
  { replace k with (Z.succ (k - 1)) at 1 by lia. apply Z.pow_succ_r. lia. }
  destruct (half_step M (2 ^ (k - 1)) HM Hpow) as [Hq Hr].
  assert (Hmod : 0 <= M mod 2 ^ (k - 1) < 2 ^ (k - 1))
    by (apply Z.mod_pos_bound; lia).
  unfold nearest. rewrite Hk2, Hr. clear Hq Hr.
  destruct (Z.odd (M / 2 ^ (k - 1)));
    destruct (M mod 2 ^ (k - 1) =? 0) eqn:Hz;
    [apply Z.eqb_eq in Hz|apply Z.eqb_neq in Hz
    |apply Z.eqb_eq in Hz|apply Z.eqb_neq in Hz];
    cbn [negb loc_of_shr_record round_nearest_even];
    try destruct (Z.even (M / (2 * 2 ^ (k - 1)))); lia.
Qed.

Lemma digits2_pos_bounds (p : positive) :
  2 ^ (Z.pos (digits2_pos p) - 1) <= Z.pos p < 2 ^ Z.pos (digits2_pos p).
Proof.
  induction p as [p IH|p IH|]; cbn [digits2_pos].
  - rewrite Pos2Z.inj_succ. change (Z.pos p~1) with (2 * Z.pos p + 1).
    replace (Z.succ (Z.pos (digits2_pos p)) - 1) with (Z.succ (Z.pos (digits2_pos p) - 1)) by lia.
    rewrite !Z.pow_succ_r by lia.
    destruct IH as [IH1 IH2]. revert IH1 IH2.
    generalize (2 ^ (Z.pos (digits2_pos p) - 1)) (2 ^ Z.pos (digits2_pos p)).
    intros; lia.
  - rewrite Pos2Z.inj_succ. change (Z.pos p~0) with (2 * Z.pos p).
    replace (Z.succ (Z.pos (digits2_pos p)) - 1) with (Z.succ (Z.pos (digits2_pos p) - 1)) by lia.
    rewrite !Z.pow_succ_r by lia.
    destruct IH as [IH1 IH2]. revert IH1 IH2.
    generalize (2 ^ (Z.pos (digits2_pos p) - 1)) (2 ^ Z.pos (digits2_pos p)).
    intros; lia.
  - simpl. lia.
Qed.

Lemma Zdigits2_eq (M d : Z) :
  2 ^ (d - 1) <= M < 2 ^ d -> 0 < d -> Zdigits2 M = d.
Proof.
  intros HM Hd.
  assert (0 < 2 ^ (d - 1)) by (apply Z.pow_pos_nonneg; lia).
  destruct M as [|p|p]; try lia. cbn [Zdigits2].
  pose proof (digits2_pos_bounds p) as Hp.
  set (d' := Z.pos (digits2_pos p)) in *.
  assert (Hd' : 0 < d') by (unfold d'; lia).
  destruct (Z.lt_trichotomy d' d) as [Hlt|[Heq|Hgt]]; [|exact Heq|].
  - assert (2 ^ d' <= 2 ^ (d - 1)) by (apply Z.pow_le_mono_r; lia). lia.
  - assert (2 ^ d <= 2 ^ (d' - 1)) by (apply Z.pow_le_mono_r; lia). lia.
Qed.

Lemma nearest_exact (M : Z) : nearest M 0 M.
Proof.
  unfold nearest. change (2 ^ 0) with 1. rewrite Z.div_1_r, Z.mod_1_r. lia.
Qed.

Lemma shr_round_spec (M e k : Z) :
  0 <= M -> 0 <= k ->
  snd (shr (Build_shr_record M false false) e k) = e + k
  /\ nearest M k
       (round_nearest_even
          (shr_m (fst (shr (Build_shr_record M false false) e k)))
          (loc_of_shr_record (fst (shr (Build_shr_record M false false) e k)))).
Proof.
  intros HM Hk. destruct (Z.eq_dec k 0) as [->|Hk0].
  - split; [simpl; lia|]. apply nearest_exact.
  - split; [|apply round_shr; lia]. rewrite shr_exact by lia. reflexivity.
Qed.

Lemma shr_fexp_shift (M e k : Z) :
  0 <= k -> 2 ^ (52 + k) <= M < 2 ^ (53 + k) -> -1074 <= e + k ->
  shr_fexp prec emax M e loc_Exact = shr (Build_shr_record M false false) e k.
Proof.
  intros Hk HM He. unfold shr_fexp, fexp, emin, prec, emax.
  rewrite (Zdigits2_eq M (53 + k)); [|replace (53 + k - 1) with (52 + k) by lia; exact HM|lia].
  cbn [shr_record_of_loc]. f_equal. lia.
Qed.

Lemma nearest_range (M k m : Z) :
  0 <= k -> 2 ^ (52 + k) <= M < 2 ^ (53 + k) -> nearest M k m ->
  2 ^ 52 <= m <= 2 ^ 53.
Proof.
  intros Hk HM (Hm & _ & _).
  assert (Hpow : 0 < 2 ^ k) by (apply Z.pow_pos_nonneg; lia).
  rewrite !Z.pow_add_r in HM by lia.
  assert (Hdiv : M = 2 ^ k * (M / 2 ^ k) + M mod 2 ^ k) by (apply Z.div_mod; lia).
  assert (Hmod : 0 <= M mod 2 ^ k < 2 ^ k) by (apply Z.mod_pos_bound; lia).
  nia.
Qed.

Lemma binary_round_aux_spec (M e k : Z) :
  0 <= k -> 2 ^ (52 + k) <= M < 2 ^ (53 + k) ->
  -1074 <= e + k -> e + k + 1 <= 971 ->
  exists mf ef m,
    binary_round_aux prec emax false M e loc_Exact = S754_finite false mf ef
    /\ nearest M k m
    /\ ((m < 2 ^ 53 /\ ef = e + k /\ Z.pos mf = m)
        \/ (m = 2 ^ 53 /\ ef = e + k + 1 /\ Z.pos mf = 2 ^ 52)).
Proof.
  intros Hk HM Hlo Hhi.
  assert (HM0 : 0 <= M).
  { assert (0 < 2 ^ (52 + k)) by (apply Z.pow_pos_nonneg; lia). lia. }
  unfold binary_round_aux. rewrite (shr_fexp_shift M e k) by assumption.
  destruct (shr_round_spec M e k HM0 Hk) as [He' Hnear].
  destruct (shr (Build_shr_record M false false) e k) as [mrs' e'].
  cbn [fst snd] in He', Hnear. subst e'.
  set (m := round_nearest_even (shr_m mrs') (loc_of_shr_record mrs')) in *.
  pose proof (nearest_range M k m Hk HM Hnear) as Hrange.
  destruct (Z.eq_dec m (2 ^ 53)) as [Htop|Htop].
  - rewrite (shr_fexp_shift m (e + k) 1); [|lia|rewrite Htop; simpl; lia|lia].
    rewrite shr_exact by lia. rewrite Htop. cbn [shr_m].
    change (2 ^ 53 / 2 ^ 1) with (Z.pos 4503599627370496).
    replace (e + k + 1 <=? emax - prec) with true
      by (symmetry; apply Z.leb_le; unfold emax, prec; lia).
    exists 4503599627370496%positive, (e + k + 1), m.
    split; [reflexivity|]. split; [exact Hnear|]. right. now rewrite Htop.
  - rewrite (shr_fexp_shift m (e + k) 0); [|lia|simpl (52 + 0); simpl (53 + 0); lia|lia].
    cbn [shr shr_m].
    destruct m as [|mf|mf] eqn:Hm; [simpl in Hrange; lia| |simpl in Hrange; lia].
    replace (e + k <=? emax - prec) with true
      by (symmetry; apply Z.leb_le; unfold emax, prec; lia).
    exists mf, (e + k), (Z.pos mf).
    split; [reflexivity|]. split; [exact Hnear|]. left. lia.
Qed.

Lemma iter_xO (p d : positive) : Z.pos (Pos.iter xO p d) = Z.pos p * 2 ^ Z.pos d.
Proof.
  induction d as [|d IH] using Pos.peano_ind.
  - simpl. lia.
  - rewrite Pos.iter_succ, Pos2Z.inj_succ, Z.pow_succ_r by lia.
    change (Z.pos (Pos.iter xO p d)~0) with (2 * Z.pos (Pos.iter xO p d)).
    rewrite IH. lia.
Qed.

Lemma float_of_int_spec (n : Z) :
  0 < n < 2 ^ 49 ->
  exists mf s,
    float_of_int n = S754_finite false mf (- s)
    /\ 4 <= s <= 52 /\ Z.pos mf = n * 2 ^ s
    /\ 2 ^ 52 <= Z.pos mf < 2 ^ 53.
Proof.
  intros Hn. destruct n as [|p|p]; try lia.
  unfold float_of_int, binary_normalize, binary_round.
  pose proof (digits2_pos_bounds p) as Hd.
  set (d := Z.pos (digits2_pos p)) in *.
  assert (Hd0 : 0 < d) by (unfold d; lia).
  assert (Hd49 : d <= 49).
  { destruct (Z.le_gt_cases d 49) as [H|H]; [exact H|].
    assert (2 ^ 49 <= 2 ^ (d - 1)) by (apply Z.pow_le_mono_r; lia). lia. }
  assert (Hfexp : fexp prec emax (d + 0) = d - 53)
    by (unfold fexp, emin, prec, emax; lia).
  rewrite Hfexp. unfold shl_align.
  destruct (d - 53 - 0) as [|q|q] eqn:Hq; try lia.
  assert (Hs : Z.pos q = 53 - d) by lia.
  assert (HM : Z.pos (Pos.iter xO p q) = Z.pos p * 2 ^ (53 - d))
    by (rewrite iter_xO, Hs; reflexivity).
  assert (Hrange : 2 ^ 52 <= Z.pos (Pos.iter xO p q) < 2 ^ 53).
  { assert (E1 : 2 ^ 52 = 2 ^ (d - 1) * 2 ^ (53 - d))
      by (rewrite <- Z.pow_add_r by lia; f_equal; lia).
    assert (E2 : 2 ^ 53 = 2 ^ d * 2 ^ (53 - d))
      by (rewrite <- Z.pow_add_r by lia; f_equal; lia).
    assert (0 < 2 ^ (53 - d)) by (apply Z.pow_pos_nonneg; lia).
    rewrite HM, E1, E2. split.
    - apply Z.mul_le_mono_nonneg_r; lia.
    - apply Z.mul_lt_mono_pos_r; lia. }
  destruct (binary_round_aux_spec (Z.pos (Pos.iter xO p q)) (d - 53) 0)
    as (mf & ef & m & Heq & Hnear & Hcase); try lia.
  assert (Hm : m = Z.pos (Pos.iter xO p q)).
  { destruct Hnear as (H1 & H2 & H3). revert H1 H2 H3.
    change (2 ^ 0) with 1. rewrite Z.div_1_r, Z.mod_1_r. lia. }
  destruct Hcase as [(Hlt & Hef & Hmf)|(Htop & _)]; [|lia].
  exists mf, (53 - d). rewrite Heq, Hef.
  replace (d - 53 + 0) with (- (53 - d)) by lia.
  split; [reflexivity|]. split; [lia|]. split; [lia|lia].
Qed.

Lemma core_0_7 (n score Sx K X M m : Z) :
  0 < n < 2 ^ 49 -> 0 <= score -> 0 < Sx -> 0 < K -> 0 < X ->
  X * K = 2 ^ 53 * Sx ->
  M = n * Sx * 6305039478318694 ->
  K * 2 ^ 52 <= M ->
  M / K <= m <= M / K + 1 ->
  (m = M / K -> 2 * (M mod K) <= K) ->
  (m = M / K + 1 -> K <= 2 * (M mod K)) ->
  (m <= score * X <-> 7 * n <= 10 * score).
Proof.
  intros Hn Hscore HSx HK HX HXK HM Hlow Hm Hdown Hup.
  assert (Hdiv : M = K * (M / K) + M mod K) by (apply Z.div_mod; lia).
  assert (Hmod : 0 <= M mod K < K) by (apply Z.mod_pos_bound; lia).
  set (q := M / K) in *. set (r := M mod K) in *.
  set (P := n * Sx) in *. set (R := score * Sx).
  assert (HP : P < 2 ^ 49 * Sx) by (unfold P; nia).
  assert (HTK : score * X * K = 2 ^ 53 * R) by (unfold R; nia).
  assert (HW : 2 * M - K <= 2 * (m * K) <= 2 * M + 2 * K) by nia.
  split.
  - intros Hle.
    destruct (Z.le_gt_cases (7 * n) (10 * score)) as [H|H]; [exact H|exfalso].
    assert (HR : 10 * R <= 7 * P - Sx) by (unfold R, P; nia).
    assert (HmK : m * K <= score * X * K) by nia.
    lia.
  - intros Hge.
    assert (HR : 7 * P <= 10 * R) by (unfold R, P; nia).
    assert (Hgt : K * q < K * (score * X)) by lia.
    assert (q < score * X) by (apply (Z.mul_lt_mono_pos_l K); lia).
    lia.
Qed.

Lemma core_0_4 (n score Sx K X M m : Z) :
  0 < n < 2 ^ 49 -> 0 <= score -> 0 < Sx -> 0 < K -> 0 < X ->
  X * K = 2 ^ 54 * Sx ->
  M = n * Sx * 7205759403792794 ->
  K * 2 ^ 52 <= M < K * 2 ^ 53 ->
  M / K <= m <= M / K + 1 ->
  (m = M / K -> 2 * (M mod K) <= K) ->
  (m = M / K + 1 -> K <= 2 * (M mod K)) ->
  (m <= score * X <-> 2 * n <= 5 * score).
Proof.
  intros Hn Hscore HSx HK HX HXK HM Hrange Hm Hdown Hup.
  assert (Hdiv : M = K * (M / K) + M mod K) by (apply Z.div_mod; lia).
  assert (Hmod : 0 <= M mod K < K) by (apply Z.mod_pos_bound; lia).
  set (P := n * Sx) in *. set (R := score * Sx).
  assert (HP : P < 2 ^ 49 * Sx) by (unfold P; nia).
  assert (HR0 : 0 <= R) by (unfold R; nia).
  assert (HTK : score * X * K = 2 ^ 54 * R) by (unfold R; nia).
  split.
  - intros Hle.
    destruct (Z.le_gt_cases (2 * n) (5 * score)) as [H|H]; [exact H|exfalso].
    assert (HR : 5 * R <= 2 * P - Sx) by (unfold R, P; nia).
    assert (HmK : m * K <= score * X * K) by nia.
    assert (HW : 2 * M - K <= 2 * (m * K)) by nia.
    lia.
  - intros Hge.
    destruct (Z.eq_dec (2 * n) (5 * score)) as [Heq|Hneq].
    + assert (HR : 5 * R = 2 * P) by (unfold R, P; nia).
      assert (HMeq : M = score * X * K + R) by lia.
      assert (HRK : 0 <= R < K) by lia.
      assert (Hq : M / K = score * X).
      { symmetry. apply (Z.div_unique_pos M K (score * X) R); lia. }
      assert (Hr : M mod K = R).
      { symmetry. apply (Z.mod_unique_pos M K (score * X) R); lia. }
      rewrite Hq, Hr in *. lia.
    + assert (HR : 2 * P + Sx <= 5 * R) by (unfold R, P; nia).
      assert (Hgt : K * (M / K) < K * (score * X)) by lia.
      assert (M / K < score * X) by (apply (Z.mul_lt_mono_pos_l K); lia).
      lia.
Qed.

Lemma int_ge_mul (n score : Z) (c : positive) (ec : Z) :
  0 < n < 2 ^ 49 -> 2 ^ 52 <= Z.pos c < 2 ^ 53 -> -64 <= ec <= -52 ->
  exists s k m,
    0 <= s /\ 0 <= k /\ 0 < s - ec - k
    /\ 2 ^ (52 + k) <= n * 2 ^ s * Z.pos c < 2 ^ (53 + k)
    /\ nearest (n * 2 ^ s * Z.pos c) k m
    /\ int_ge_float score (int_mul_float n (S754_finite false c ec))
       = (m <=? score * 2 ^ (s - ec - k)).
Proof.
  intros Hn Hc Hec.
  destruct (float_of_int_spec n Hn) as (mf & s & Hfloat & Hs & Hmf & Hmfr).
  unfold int_mul_float. rewrite Hfloat. cbn [SFmul xorb].
  rewrite Pos2Z.inj_mul, Hmf.
  set (M := n * 2 ^ s * Z.pos c).
  assert (HMr : 2 ^ 104 <= M < 2 ^ 106).
  { unfold M. rewrite <- Hmf.
    change (2 ^ 104) with (2 ^ 52 * 2 ^ 52). change (2 ^ 106) with (2 ^ 53 * 2 ^ 53).
    nia. }
  assert (Hk : exists k, 52 <= k <= 53 /\ 2 ^ (52 + k) <= M < 2 ^ (53 + k)).
  { destruct (Z.lt_ge_cases M (2 ^ 105)) as [H|H].
    - exists 52. split; [lia|]. change (2 ^ (52 + 52)) with (2 ^ 104).
      change (2 ^ (53 + 52)) with (2 ^ 105). lia.
    - exists 53. split; [lia|]. change (2 ^ (52 + 53)) with (2 ^ 105).
      change (2 ^ (53 + 53)) with (2 ^ 106). lia. }
  destruct Hk as (k & Hk & HMk).
  destruct (binary_round_aux_spec M (- s + ec) k) as (mf2 & ef2 & m & Heq & Hnear & Hcase);
    try lia.
  exists s, k, m. rewrite Heq.
  split; [lia|]. split; [lia|]. split; [lia|]. split; [exact HMk|].
  split; [exact Hnear|].
  unfold int_ge_float.
  destruct Hcase as [(_ & Hef & Hm)|(Hm & Hef & Hmf2)].
  - replace (ef2 <? 0) with true by (symmetry; apply Z.ltb_lt; lia).
    rewrite Hm, Hef. replace (- (- s + ec + k)) with (s - ec - k) by lia. reflexivity.
  - replace (ef2 <? 0) with true by (symmetry; apply Z.ltb_lt; lia).
    rewrite Hmf2, Hm, Hef.
    replace (s - ec - k) with (Z.succ (- (- s + ec + k + 1))) by lia.
    rewrite Z.pow_succ_r by lia.
    generalize (2 ^ (- (- s + ec + k + 1))). intros x.
    change (2 ^ 53) with (2 * 2 ^ 52).
    destruct (Z.leb_spec (2 ^ 52) (score * x)), (Z.leb_spec (2 * 2 ^ 52) (score * (2 * x)));
      try reflexivity; lia.
Qed.

Lemma pow_split (a b : Z) : 0 <= a -> 0 <= b -> 2 ^ a * 2 ^ b = 2 ^ (a + b).
Proof. intros. now rewrite Z.pow_add_r. Qed.

Lemma int_ge_0_7 (n score : Z) :
  0 < n < 2 ^ 49 -> 0 <= score ->
  int_ge_float score (int_mul_float n float_0_7) = (7 * n <=? 10 * score).
Proof.
  intros Hn Hscore. unfold float_0_7.
  destruct (int_ge_mul n score 6305039478318694 (-53) Hn)
    as (s & k & m & Hs & Hk & Hx & HM & (Hm & Hdown & Hup) & ->); try lia.
  assert (HSx : 0 < 2 ^ s) by (apply Z.pow_pos_nonneg; lia).
  assert (HK : 0 < 2 ^ k) by (apply Z.pow_pos_nonneg; lia).
  assert (HX : 0 < 2 ^ (s - -53 - k)) by (apply Z.pow_pos_nonneg; lia).
  assert (HXK : 2 ^ (s - -53 - k) * 2 ^ k = 2 ^ 53 * 2 ^ s).
  { rewrite !pow_split by lia. f_equal. lia. }
  assert (Hlow : 2 ^ k * 2 ^ 52 <= n * 2 ^ s * 6305039478318694).
  { rewrite pow_split by lia. rewrite Z.add_comm. apply HM. }
  pose proof (core_0_7 n score (2 ^ s) (2 ^ k) (2 ^ (s - -53 - k))
                (n * 2 ^ s * 6305039478318694) m
                Hn Hscore HSx HK HX HXK eq_refl Hlow Hm Hdown Hup) as Hcore.
  destruct (Z.leb_spec m (score * 2 ^ (s - -53 - k))),
           (Z.leb_spec (7 * n) (10 * score)); try reflexivity; lia.
Qed.

Lemma int_ge_0_4 (n score : Z) :
  0 < n < 2 ^ 49 -> 0 <= score ->
  int_ge_float score (int_mul_float n float_0_4) = (2 * n <=? 5 * score).
Proof.
  intros Hn Hscore. unfold float_0_4.
  destruct (int_ge_mul n score 7205759403792794 (-54) Hn)
    as (s & k & m & Hs & Hk & Hx & HM & (Hm & Hdown & Hup) & ->); try lia.
  assert (HSx : 0 < 2 ^ s) by (apply Z.pow_pos_nonneg; lia).
  assert (HK : 0 < 2 ^ k) by (apply Z.pow_pos_nonneg; lia).
  assert (HX : 0 < 2 ^ (s - -54 - k)) by (apply Z.pow_pos_nonneg; lia).
  assert (HXK : 2 ^ (s - -54 - k) * 2 ^ k = 2 ^ 54 * 2 ^ s).
  { rewrite !pow_split by lia. f_equal. lia. }
  assert (Hrange : 2 ^ k * 2 ^ 52 <= n * 2 ^ s * 7205759403792794 < 2 ^ k * 2 ^ 53).
  { rewrite !pow_split by lia. rewrite (Z.add_comm k 52), (Z.add_comm k 53). apply HM. }
  pose proof (core_0_4 n score (2 ^ s) (2 ^ k) (2 ^ (s - -54 - k))
                (n * 2 ^ s * 7205759403792794) m
                Hn Hscore HSx HK HX HXK eq_refl Hrange Hm Hdown Hup) as Hcore.
  destruct (Z.leb_spec m (score * 2 ^ (s - -54 - k))),
           (Z.leb_spec (2 * n) (5 * score)); try reflexivity; lia.
Qed.

Lemma ratio_eq_1 (score total : nat) :
  (0 < total)%nat -> Qeq_bool (ratio score total) 1 = (score =? total)%nat.
Proof.
  intros Ht. unfold ratio, Qeq_bool, Qdiv.
  destruct (Z.of_nat total) as [|p|p] eqn:Hp; try lia.
  cbn [Qnum Qden Qinv Qmult inject_Z].
  destruct (Nat.eqb_spec score total) as [H|H].
  - apply Z.eqb_eq. lia.
  - apply Z.eqb_neq. lia.
Qed.

Lemma ratio_ge (a : Z) (b : positive) (score total : nat) :
  (0 < total)%nat ->
  Qle_bool (a # b) (ratio score total)
  = (a * Z.of_nat total <=? Z.pos b * Z.of_nat score).
Proof.
  intros Ht. unfold ratio, Qle_bool, Qdiv.
  destruct (Z.of_nat total) as [|p|p] eqn:Hp; try lia.
  cbn [Qnum Qden Qinv Qmult inject_Z].
  match goal with
  | |- (?x <=? ?y) = (?u <=? ?v) =>
      destruct (Z.leb_spec x y), (Z.leb_spec u v); try reflexivity; lia
  end.
Qed.

(** Why the lemmas above bound the integer: from about 2^53 on the rounded
    product can lie one below the exact one, and the comparison then passes
    for a score just under seven tenths. *)
Lemma rounding_needs_bound :
  int_ge_float 8399999999999999 (int_mul_float 12000000000000000 float_0_7) = true
  /\ (7 * 12000000000000000 <=? 10 * 8399999999999999) = false.
Proof. split; vm_compute; reflexivity. Qed.

End Binary64.

(** ** The claim about the feedback tier *)

(** C4: for a quiz of fewer than 2^49 questions, where the rounding of
    [len(questions) * 0.7] and [len(questions) * 0.4] cannot move a
    comparison with an integer score, the feedback rendered is a function of
    the ratio score/total alone: the top message when the ratio is 1,
    otherwise the high one from 7/10 on, otherwise the middle one from 4/10
    on, otherwise the low one; the ratios 1, 0.7 and 0.4 fall in the top, high
    and middle tier, 0.69 in the middle and 0.39 in the low one. *)
Theorem feedback_tier_of_ratio (score total : nat) :
  0 < total -> (Z.of_nat total < 2 ^ 49)%Z ->
  encouragement score total = tier_events (tier_of_ratio (ratio score total))
  /\ encouragement 100 100 = tier_events Top
  /\ encouragement 70 100 = tier_events High
  /\ encouragement 40 100 = tier_events Mid
  /\ encouragement 69 100 = tier_events Mid
  /\ encouragement 39 100 = tier_events Low.
Proof.
  intros Ht Hbound. split; [|repeat split; vm_compute; reflexivity].
  unfold encouragement, tier_of_ratio.
  rewrite Binary64.ratio_eq_1, !Binary64.ratio_ge by exact Ht.
  rewrite Binary64.int_ge_0_7, Binary64.int_ge_0_4 by lia.
  destruct (score =? total); [reflexivity|].
  destruct (7 * Z.of_nat total <=? 10 * Z.of_nat score)%Z; [reflexivity|].
  replace (4 * Z.of_nat total <=? 10 * Z.of_nat score)%Z
    with (2 * Z.of_nat total <=? 5 * Z.of_nat score)%Z.
  - destruct (2 * Z.of_nat total <=? 5 * Z.of_nat score)%Z; reflexivity.
  - destruct (Z.leb_spec (2 * Z.of_nat total) (5 * Z.of_nat score)),
             (Z.leb_spec (4 * Z.of_nat total) (10 * Z.of_nat score));
      try reflexivity; lia.
Qed.

Lemma feedback_tier_of_ratio_witness :
  encouragement 7 10 = tier_events (tier_of_ratio (ratio 7 10)).
Proof.
  refine (proj1 (feedback_tier_of_ratio 7 10 _ _)).
  - lia.
  - vm_compute. reflexivity.
Defined.

(** ** The claims about generation and the session *)

Lemma main_consults_endpoint_once (state : session_state) (inp : inputs) :
  main state inp = main state (with_post inp (fun _ => post inp (prompt_sent inp))).
Proof. reflexivity. Qed.

(** C5, as the code has it: the prompt a run sends embeds the content as it
    was entered and the name of the level in lower case; the endpoint is
    consulted with this prompt and no other.  For the content about
    photosynthesis and the level Medium the prompt holds that text and the
    word "medium". *)
Theorem prompt_embeds_content_and_lowered_level (inp : inputs) :
  (forall state,
     main state inp = main state (with_post inp (fun _ => post inp (prompt_sent inp))))
  /\ (exists before between after,
        prompt_sent inp
        = before ++ lower (level_name (selected_level inp)) ++ between
            ++ text_content inp ++ after)
  /\ contains (text_content inp) (prompt_sent inp) = true
  /\ contains (lower (level_name (selected_level inp))) (prompt_sent inp) = true
  /\ In (lower (level_name (selected_level inp))) [lit "easy"; lit "medium"; lit "hard"]
  /\ (forall p, contains photosynthesis (prompt_sent (run_medium p)) = true
                /\ contains (lit "medium") (prompt_sent (run_medium p)) = true).
Proof.
  split; [intros state; apply main_consults_endpoint_once|].
  split; [|split; [|split; [|split]]].
  - exists prompt_head, prompt_middle, prompt_tail. reflexivity.
  - unfold prompt_sent, prompt.
    rewrite (app_assoc prompt_head), (app_assoc (prompt_head ++ _)).
    apply contains_app.
  - unfold prompt_sent, prompt. apply contains_app.
  - destruct (selected_level inp); simpl; intuition.
  - intros p. split; vm_compute; reflexivity.
Qed.

(** C5, as it is stated, fails: for the level Medium the prompt sent does not
    hold the string "Medium". *)
Lemma prompt_lacks_capitalised_level :
  contains (level_name Medium) (prompt_sent (run_medium unreachable)) = false
  /\ level_name Medium = lit "Medium".
Proof. split; vm_compute; reflexivity. Qed.




(** * Further properties of the code *)

(** ** Whitespace around a reply *)

Lemma lstrip_all_space (ws : str) : all_space ws -> lstrip ws = [].
Proof.
  induction 1 as [|c ws Hc _ IH]; [reflexivity|]. cbn [lstrip]. now rewrite Hc.
Qed.

Lemma lstrip_app (a b : str) :
  lstrip (a ++ b)
  = match lstrip a with
    | [] => lstrip b
    | _ :: _ => lstrip a ++ b
    end.
Proof.
  induction a as [|c a IH]; cbn [app lstrip]; [reflexivity|].
  destruct (isspace c); [exact IH|reflexivity].
Qed.

Lemma rstrip_app_space (s ws : str) : all_space ws -> rstrip (s ++ ws) = rstrip s.
Proof.
  intros Hws. unfold rstrip. rewrite rev_app_distr, lstrip_app.
  rewrite lstrip_all_space by (apply Forall_rev; exact Hws). reflexivity.
Qed.

Lemma strip_padded (ws1 s ws2 : str) :
  all_space ws1 -> all_space ws2 -> strip (ws1 ++ s ++ ws2) = strip s.
Proof.
  intros H1 H2. unfold strip.
  rewrite (lstrip_app ws1), (lstrip_all_space ws1 H1), (lstrip_app s).
  destruct (lstrip s) as [|c t] eqn:Hs.
  - now rewrite (lstrip_all_space ws2 H2).
  - now apply rstrip_app_space.
Qed.

(** X1: whitespace before and after a reply does not change what is parsed:
    [raw_text.strip()] removes it before the reply is split into blocks, and
    [block.strip()] removes it before a block is split into lines. *)
Theorem parse_ignores_outer_whitespace (ws1 raw_text ws2 : str) :
  all_space ws1 -> all_space ws2 ->
  parse_questions (ws1 ++ raw_text ++ ws2) = parse_questions raw_text
  /\ scan_block (ws1 ++ raw_text ++ ws2) = scan_block raw_text.
Proof.
  intros H1 H2. unfold parse_questions, blocks_of, scan_block.
  now rewrite strip_padded.
Qed.

Lemma parse_ignores_outer_whitespace_witness :
  parse_questions (lit "  " ++ raw_two_options ++ [nl; nl])
    = parse_questions raw_two_options
  /\ scan_block (lit "  " ++ raw_two_options ++ [nl; nl])
     = scan_block raw_two_options.
Proof.
  refine (parse_ignores_outer_whitespace (lit "  ") raw_two_options [nl; nl] _ _);
    repeat constructor.
Defined.

(** ** The scan of a block in closed form *)

Lemma find_app {A} (p : A -> bool) (a b : list A) :
  find p (a ++ b) = match find p a with Some x => Some x | None => find p b end.
Proof.
  induction a as [|x a IH]; cbn [app find]; [reflexivity|].
  destruct (p x); [reflexivity|exact IH].
Qed.

Lemma question_line_no_option (line : str) :
  startswith (lit "Question:") line = true -> re_match_option (strip line) = false.
Proof.
  intros H. apply startswith_true in H as [rest ->].
  change (lit "Question:" ++ rest) with ("Q"%char :: "u"%char :: lit "estion:" ++ rest).
  destruct (strip_keeps_two "Q" "u" (lit "estion:" ++ rest)) as [r Hr]; try reflexivity.
  now rewrite Hr.
Qed.

Lemma answer_line_no_option (line : str) :
  startswith (lit "Answer:") line = true -> re_match_option (strip line) = false.
Proof.
  intros H. apply startswith_true in H as [rest ->].
  change (lit "Answer:" ++ rest) with ("A"%char :: "n"%char :: lit "swer:" ++ rest).
  destruct (strip_keeps_two "A" "n" (lit "swer:" ++ rest)) as [r Hr]; try reflexivity.
  now rewrite Hr.
Qed.

Lemma answer_line_no_question (line : str) :
  startswith (lit "Answer:") line = true -> startswith (lit "Question:") line = false.
Proof.
  intros H. apply startswith_true in H as [rest ->]. reflexivity.
Qed.

Lemma scan_lines_closed_form (lines : list str) (q : Question) :
  question (fold_left scan_line lines q)
    = match last_with_prefix (lit "Question:") lines with
      | Some line => strip (replace (lit "Question:") [] line)
      | None => question q
      end
  /\ options (fold_left scan_line lines q)
     = options q ++ map strip (filter (fun line => re_match_option (strip line)) lines)
  /\ answer (fold_left scan_line lines q)
     = match last_with_prefix (lit "Answer:") lines with
       | Some line => upper (strip (replace (lit "Answer:") [] line))
       | None => answer q
       end.
Proof.
  unfold last_with_prefix. revert q.
  induction lines as [|line lines IH]; intros q.
  - cbn. now rewrite app_nil_r.
  - cbn [fold_left rev filter]. rewrite !find_app.
    destruct (IH (scan_line q line)) as (IHq & IHo & IHa).
    rewrite IHq, IHo, IHa. clear IH IHq IHo IHa.
    cbn [find]. unfold scan_line.
    destruct (startswith (lit "Question:") line) eqn:Hq.
    + rewrite (question_line_no_option line Hq).
      assert (Ha : startswith (lit "Answer:") line = false).
      { destruct (startswith (lit "Answer:") line) eqn:Ha; [|reflexivity].
        now rewrite (answer_line_no_question line Ha) in Hq. }
      rewrite Ha. cbn [question options answer set_question].
      repeat split; destruct (find _ (rev lines)); reflexivity.
    + destruct (re_match_option (strip line)) eqn:Ho.
      * assert (Ha : startswith (lit "Answer:") line = false).
        { destruct (startswith (lit "Answer:") line) eqn:Ha; [|reflexivity].
          now rewrite (answer_line_no_option line Ha) in Ho. }
        rewrite Ha. cbn [question options answer append_option map].
        rewrite <- app_assoc.
        repeat split; destruct (find _ (rev lines)); reflexivity.
      * destruct (startswith (lit "Answer:") line) eqn:Ha;
          cbn [question options answer set_answer];
          repeat split; destruct (find _ (rev lines)); reflexivity.
Qed.


(** ** Two blocks with no blank line between them *)




Lemma join_ends (sep : str) (pieces : list str) (t : str) (c : ascii) :
  exists pre, join sep (pieces ++ [t ++ [c]]) = pre ++ [c].
Proof.
  induction pieces as [|p pieces [pre IH]].
  - now exists t.
  - exists (p ++ sep ++ pre). cbn [app].
    destruct (pieces ++ [t ++ [c]]) eqn:E; [destruct pieces; discriminate|].
    cbn [join]. cbn [join] in IH. rewrite IH, <- !app_assoc. reflexivity.
Qed.


Lemma follows_grammar_sky : follows_grammar block_sky.
Proof.
  repeat split; try discriminate; try (apply nl_free_check; reflexivity).
  simpl. tauto.
Qed.



(** ** From the reply to the score *)










(** ** Answers that cannot be matched *)

Lemma str_eqb_length (a b : str) : str_eqb a b = true -> length a = length b.
Proof. intros H. apply str_eqb_eq in H. now subst. Qed.

(** X5: a question whose stored answer is not exactly one character long is
    marked incorrect whatever option is chosen, because only the first
    character of the chosen option is compared with it.  The parser stores
    such an answer when the "Answer:" line repeats the text of the option. *)
Theorem long_answer_never_correct (q : Question) (selected : option str) (i : nat) :
  answered selected = true ->
  length (answer q) <> 1 ->
  is_correct q (label_of selected) = false
  /\ report i q (label_of selected)
     = [st_error (msg_incorrect i (label_of selected));
        st_info (msg_correct_answer (correct_option_of q))].
Proof.
  intros Hans Hlen.
  assert (Hfalse : is_correct q (label_of selected) = false).
  { destruct (is_correct q (label_of selected)) eqn:E; [|reflexivity].
    unfold is_correct in E. apply str_eqb_length in E.
    unfold upper in E. rewrite length_map in E.
    destruct selected as [[|c rest]|]; try discriminate. simpl in E. congruence. }
  split; [exact Hfalse|]. unfold report. now rewrite Hfalse.
Qed.

Lemma long_answer_never_correct_witness :
  parse_questions raw_long_answer
    = [mkQuestion (lit "What is 2+2?") [lit "A) 3"; lit "B) 4"] (lit "B) 4")]
  /\ is_correct (mkQuestion (lit "What is 2+2?") [lit "A) 3"; lit "B) 4"] (lit "B) 4"))
       (label_of (Some (lit "B) 4"))) = false.
Proof.
  split; [vm_compute; reflexivity|].
  refine (proj1 (long_answer_never_correct
                   (mkQuestion (lit "What is 2+2?") [lit "A) 3"; lit "B) 4"] (lit "B) 4"))
                   (Some (lit "B) 4")) 0 _ _)).
  - reflexivity.
  - discriminate.
Defined.

(** ** The score and the top tier *)

Lemma count_correct_le (questions : list Question) (labels : list str) :
  count_correct questions labels <= length questions.
Proof.
  revert labels. induction questions as [|q questions IH]; intros [|l labels];
    cbn [count_correct length]; try lia.
  specialize (IH labels). destruct (is_correct q l); lia.
Qed.

Lemma count_correct_full (questions : list Question) (labels : list str) :
  length labels = length questions ->
  (count_correct questions labels = length questions
   <-> Forall2 (fun q l => is_correct q l = true) questions labels).
Proof.
  revert labels. induction questions as [|q questions IH]; intros [|l labels] Hlen;
    try discriminate.
  - split; [constructor|reflexivity].
  - injection Hlen as Hlen. cbn [count_correct length].
    pose proof (count_correct_le questions labels) as Hle.
    specialize (IH labels Hlen). split.
    + intros H. destruct (is_correct q l) eqn:E; [|lia].
      constructor; [exact E|]. apply IH. lia.
    + intros H. inversion H as [|? ? ? ? Hq Hrest]; subst.
      rewrite Hq. apply IH in Hrest. lia.
Qed.

Lemma encouragement_top (score total : nat) :
  encouragement score total = tier_events Top <-> score = total.
Proof.
  unfold encouragement. destruct (Nat.eqb_spec score total) as [H|H].
  - now split.
  - split; [|congruence].
    destruct (int_ge_float _ (int_mul_float _ float_0_7));
      [discriminate|].
    destruct (int_ge_float _ (int_mul_float _ float_0_4)); discriminate.
Qed.

(** X6: the score never exceeds the number of questions, and the balloons
    with the top message are rendered exactly when every question is answered
    correctly. *)
Theorem perfect_score_iff_all_correct (questions : list Question) (labels : list str) :
  length labels = length questions ->
  count_correct questions labels <= length questions
  /\ (encouragement (count_correct questions labels) (length questions)
      = tier_events Top
      <-> Forall2 (fun q l => is_correct q l = true) questions labels).
Proof.
  intros Hlen. split; [apply count_correct_le|].
  rewrite encouragement_top. now apply count_correct_full.
Qed.

Lemma perfect_score_iff_all_correct_witness :
  count_correct [q_two_options; q_unmatched] [lit "B"; lit "A"]
    <= length [q_two_options; q_unmatched]
  /\ (encouragement (count_correct [q_two_options; q_unmatched] [lit "B"; lit "A"])
        (length [q_two_options; q_unmatched])
      = tier_events Top
      <-> Forall2 (fun q l => is_correct q l = true)
            [q_two_options; q_unmatched] [lit "B"; lit "A"]).
Proof.
  refine (perfect_score_iff_all_correct
            [q_two_options; q_unmatched] [lit "B"; lit "A"] _).
  reflexivity.
Defined.

(** ** The tier never falls when the score rises *)

Lemma int_ge_float_mono (i j : Z) (x : spec_float) :
  (i <= j)%Z -> int_ge_float i x = true -> int_ge_float j x = true.
Proof.
  intros Hij. unfold int_ge_float.
  destruct x as [s|s| |s m e]; try (intros H; exact H).
  - intros H. apply Z.leb_le in H. apply Z.leb_le. lia.
  - assert (Hpow : (0 <= 2 ^ (- e))%Z) by (apply Z.pow_nonneg; lia).
    destruct s, (e <? 0)%Z; intros H; apply Z.leb_le in H; apply Z.leb_le; nia.
Qed.

Lemma encouragement_is_a_tier (score total : nat) :
  exists t, encouragement score total = tier_events t
            /\ (t = Top <-> score = total)
            /\ (score <> total ->
                (2 <= tier_rank t <->
                 int_ge_float (Z.of_nat score)
                   (int_mul_float (Z.of_nat total) float_0_7) = true)
                /\ (1 <= tier_rank t <->
                    int_ge_float (Z.of_nat score)
                      (int_mul_float (Z.of_nat total) float_0_7) = true
                    \/ int_ge_float (Z.of_nat score)
                         (int_mul_float (Z.of_nat total) float_0_4) = true)).
Proof.
  unfold encouragement. destruct (Nat.eqb_spec score total) as [H|H].
  - exists Top. split; [reflexivity|]. split; [tauto|congruence].
  - destruct (int_ge_float _ (int_mul_float _ float_0_7)) eqn:E7;
      [exists High
      |destruct (int_ge_float _ (int_mul_float _ float_0_4)) eqn:E4;
       [exists Mid|exists Low]];
      (split; [reflexivity|]); (split; [split; [discriminate|tauto]|]);
      intros _; cbn; intuition (try lia; try discriminate).
Qed.

(** X7: for a quiz of a given length a higher score never gets a lower
    tier.  The comparisons are those of the code, between an integer and a
    binary64 product, and no bound on the length of the quiz is needed. *)
Theorem tier_monotone (score score' total : nat) :
  score <= score' -> score' <= total ->
  exists t t',
    encouragement score total = tier_events t
    /\ encouragement score' total = tier_events t'
    /\ tier_rank t <= tier_rank t'.
Proof.
  intros Hle Htot.
  destruct (encouragement_is_a_tier score total) as (t & Ht & Htop & Hrank).
  destruct (encouragement_is_a_tier score' total) as (t' & Ht' & Htop' & Hrank').
  exists t, t'. split; [exact Ht|]. split; [exact Ht'|].
  destruct (Nat.eq_dec score' total) as [E'|E'].
  - apply Htop' in E'. subst t'. destruct t; cbn; lia.
  - assert (E : score <> total) by lia.
    destruct (Hrank E) as [H2 H1]. destruct (Hrank' E') as [H2' H1'].
    assert (Hz : (Z.of_nat score <= Z.of_nat score')%Z) by lia.
    assert (Hnt : t <> Top) by (intros Ht0; apply Htop in Ht0; lia).
    destruct t; try congruence; cbn in *.
    + assert (2 <= tier_rank t').
      { apply H2'. apply (int_ge_float_mono _ _ _ Hz). apply H2. lia. }
      lia.
    + assert (1 <= tier_rank t').
      { apply H1'. destruct (proj1 H1 ltac:(lia)) as [H|H];
          [left|right]; exact (int_ge_float_mono _ _ _ Hz H). }
      lia.
    + lia.
Qed.

Lemma tier_monotone_witness :
  exists t t',
    encouragement 2 5 = tier_events t
    /\ encouragement 4 5 = tier_events t'
    /\ tier_rank t <= tier_rank t'.
Proof.
  refine (tier_monotone 2 4 5 _ _); lia.
Defined.

(** ** The call to the endpoint *)

(** X8: [fetch_questions] returns a list exactly when the call returns with
    status 200 and the reply holds a text under "candidates", and the list is
    then the parse of that text; it returns [None] exactly when it has
    rendered an error, a single one, and it renders nothing when it returns a
    list. *)
Theorem fetch_questions_outcome (post : endpoint) (text_content quiz_level : str) :
  (forall questions,
     fst (fetch_questions post text_content quiz_level) = Some questions
     <-> exists r result_text,
           post (prompt text_content quiz_level) = post_returns r
           /\ status_code r = 200
           /\ candidates r = candidates_text result_text
           /\ questions = parse_questions result_text)
  /\ (fst (fetch_questions post text_content quiz_level) = None
      <-> exists m, snd (fetch_questions post text_content quiz_level) = [st_error m])
  /\ (fst (fetch_questions post text_content quiz_level) <> None
      -> snd (fetch_questions post text_content quiz_level) = []).
Proof.
  unfold fetch_questions.
  destruct (post (prompt text_content quiz_level)) as [e|r] eqn:Hpost.
  - split; [|split].
    + intros questions. split; [discriminate|].
      intros (r & t & Hr & _). discriminate.
    + split; [eexists; reflexivity|reflexivity].
    + intros H. now contradiction H.
  - destruct (Nat.eqb_spec (status_code r) 200) as [Hs|Hs];
      destruct (candidates r) as [|t|e] eqn:Hc; cbn [fst snd];
      (split; [|split]);
      try (intros questions; split; [discriminate|];
           intros (r' & t' & Hr & Hs' & Hc' & _); injection Hr as <-; congruence);
      try (split; [eexists; reflexivity|reflexivity]);
      try (intros H; now contradiction H).
    + intros questions. split.
      * intros H. injection H as <-. now exists r, t.
      * intros (r' & t' & Hr & _ & Hc' & ->). injection Hr as <-.
        congruence.
    + split; [discriminate|]. intros [m H]. discriminate.
    + reflexivity.
Qed.

(** ** One run *)

Lemma strip_all_space (s : str) : all_space s -> strip s = [].
Proof. intros H. unfold strip. now rewrite (lstrip_all_space s H). Qed.

(** X9: pressing the button with a content that is empty or made of
    whitespace only renders the warning after the heading and nothing else,
    and leaves the session store as it was; the endpoint plays no part in
    the run, whichever it is. *)
Theorem blank_content_never_sent (state : session_state) (inp : inputs)
    (p : endpoint) :
  generate inp = true ->
  all_space (text_content inp) ->
  main state (with_post inp p)
  = (state, Ok (heading ++ [st_warning msg_enter_content])).
Proof.
  intros Hgen Hblank. unfold main, with_post. cbn [generate text_content].
  now rewrite Hgen, (strip_all_space _ Hblank).
Qed.

Lemma blank_content_never_sent_witness :
  main (Some [q_unmatched])
    (with_post (mkInputs (lit "  ") Medium true unreachable [] true)
       (replying raw_two_options))
  = (Some [q_unmatched], Ok (heading ++ [st_warning msg_enter_content])).
Proof.
  refine (blank_content_never_sent (Some [q_unmatched])
            (mkInputs (lit "  ") Medium true unreachable [] true)
            (replying raw_two_options) _ _).
  - reflexivity.
  - repeat constructor.
Defined.

Lemma fst_show_quiz (state : session_state) (inp : inputs) (out : list ui) :
  fst (show_quiz state inp out) = state.
Proof.
  unfold show_quiz. destruct state as [questions|]; [|reflexivity].
  now destruct (display_quiz questions (selections inp) (submitted inp)).
Qed.

Lemma show_quiz_loaded (questions : list Question) (inp : inputs) (out : list ui) :
  exists shown,
    display_quiz questions (selections inp) (submitted inp) = Ok shown
    /\ show_quiz (Some questions) inp out = (Some questions, Ok (out ++ shown)).
Proof.
  destruct (display_quiz_no_crash questions (selections inp) (submitted inp))
    as [shown Hshown].
  exists shown. split; [exact Hshown|]. unfold show_quiz. now rewrite Hshown.
Qed.



(** X13: no run of [main] ends with an exception.  The output always begins
    with the title and the introduction; what the endpoint raises is rendered
    as an error, and the grading loop, where [user_answer.upper()] would
    raise on [None], is never entered with an unanswered question. *)
Theorem main_never_crashes (state : session_state) (inp : inputs) :
  exists rest, snd (main state inp) = Ok (heading ++ rest).
Proof.
  assert (Hshow : forall st out,
             exists rest, snd (show_quiz st inp out) = Ok (out ++ rest)).
  { intros [questions|] out.
    - destruct (show_quiz_loaded questions inp out) as (shown & _ & ->).
      now exists shown.
    - exists []. cbn. now rewrite app_nil_r. }
  unfold main. destruct (generate inp).
  - destruct (negb (nonempty (strip (text_content inp)))).
    + eexists. reflexivity.
    + destruct (fetch_questions (post inp) (text_content inp)
                  (lower (level_name (selected_level inp)))) as [[[|q qs]|] errors].
      * eexists. cbn [snd]. rewrite <- app_assoc. reflexivity.
      * destruct (Hshow (Some (q :: qs))
                    ((heading ++ [st_info msg_generating]) ++ errors)) as [rest ->].
        eexists. rewrite <- !app_assoc. reflexivity.
      * eexists. cbn [snd]. rewrite <- app_assoc. reflexivity.
  - apply Hshow.
Qed.

(** ** The session store over a sequence of runs *)

Lemma main_store_step (state : session_state) (inp : inputs) :
  fst (main state inp) = state
  \/ (generate inp = true
      /\ exists result_text,
           parse_questions result_text <> []
           /\ fst (main state inp) = Some (parse_questions result_text)).
Proof.
  unfold main. destruct (generate inp); [|left; apply fst_show_quiz].
  destruct (negb (nonempty (strip (text_content inp)))); [now left|].
  unfold fetch_questions.
  destruct (post inp _) as [e|r]; [now left|].
  destruct (status_code r =? 200); [|now left].
  destruct (candidates r) as [|t|e]; try (now left).
  destruct (parse_questions t) as [|q qs] eqn:E; [now left|].
  right. split; [reflexivity|]. exists t. rewrite E. split; [discriminate|].
  apply fst_show_quiz.
Qed.

Lemma parse_questions_well_parsed (raw_text : str) :
  Forall well_parsed (parse_questions raw_text).
Proof.
  apply Forall_forall. intros q Hq.
  apply in_parse_questions in Hq as (block & _ & <- & Hacc).
  unfold accepted in Hacc.
  apply andb_true_iff in Hacc as [Hacc Ha].
  apply andb_true_iff in Hacc as [Hq Ho].
  repeat split; try apply scan_block_invariant.
  - intros E. rewrite E in Hq. discriminate.
  - intros E. rewrite E in Ho. discriminate.
  - intros E. rewrite E in Ha. discriminate.
Qed.

Lemma main_store_ok (state : session_state) (inp : inputs) :
  store_ok state -> store_ok (fst (main state inp)).
Proof.
  intros Hok. destruct (main_store_step state inp) as [->|(_ & t & Hne & ->)];
    [exact Hok|].
  split; [exact Hne|apply parse_questions_well_parsed].
Qed.

(** X11: in a session that starts with an empty store, after any sequence
    of runs the store is empty or holds a quiz of at least one question, and
    every question in it has a text, an option and an answer and satisfies the
    invariant of the scan. *)
Theorem session_store_invariant (runs : list inputs) :
  store_ok (run_session None runs).
Proof.
  unfold run_session.
  assert (H : forall state, store_ok state ->
                store_ok (fold_left (fun store inp => fst (main store inp)) runs state)).
  { induction runs as [|inp runs IH]; intros state Hok; [exact Hok|].
    cbn [fold_left]. apply IH. now apply main_store_ok. }
  apply H. exact I.
Qed.

(** X12: once a quiz is loaded, no sequence of runs empties the session
    store; and runs in which the button is not pressed leave the store
    exactly as it is. *)
Theorem loaded_quiz_stays (questions : list Question) (state : session_state)
    (runs : list inputs) :
  run_session (Some questions) runs <> None
  /\ (Forall (fun inp => generate inp = false) runs ->
      run_session state runs = state).
Proof.
  unfold run_session. split.
  - revert questions. induction runs as [|inp runs IH]; intros questions;
      [discriminate|].
    cbn [fold_left].
    destruct (main_store_step (Some questions) inp) as [->|(_ & t & _ & ->)];
      apply IH.
  - intros Hall. revert state.
    induction Hall as [|inp runs Hinp _ IH]; intros state; [reflexivity|].
    cbn [fold_left].
    destruct (main_store_step state inp) as [->|(Hgen & _)]; [apply IH|].
    congruence.
Qed.

(** ** The lines behind a returned question *)


Lemma last_with_prefix_none (prefix : str) (lines : list str) :
  (forall line, In line lines -> startswith prefix line = false) ->
  last_with_prefix prefix lines = None.
Proof.
  unfold last_with_prefix. intros H.
  assert (H' : forall line, In line (rev lines) -> startswith prefix line = false).
  { intros line Hin. apply H. now apply in_rev. }
  clear H. induction (rev lines) as [|l ls IH]; [reflexivity|].
  cbn [find]. rewrite (H' l (or_introl eq_refl)). apply IH.
  intros line Hin. apply H'. now right.
Qed.



(** ** Indentation *)

Lemma startswith_space (prefix : str) (c p : ascii) (rest : str) :
  isspace c = true -> isspace p = false ->
  startswith (p :: prefix) (c :: rest) = false.
Proof.
  intros Hc Hp. destruct (startswith (p :: prefix) (c :: rest)) eqn:E; [|reflexivity].
  apply startswith_true in E as [r E]. injection E as -> _. congruence.
Qed.

(** X15: a block of the grammar whose lines are all indented by the same
    whitespace, as the format is in the prompt, is dropped.  The indentation
    of the first line goes with [block.strip()] and the options are matched
    on the stripped line, but the prefix "Answer:" is looked for on the line
    as it stands. *)
Theorem indented_block_dropped (indent : str) (b : block) :
  follows_grammar b ->
  indent <> [] -> all_space indent -> nl_free indent ->
  parse_questions (render_indented indent b) = [].
Proof.
  intros Hb Hne Hsp Hnl.
  destruct indent as [|i0 ir]; [congruence|]. set (indent := i0 :: ir) in *.
  assert (Hi0 : isspace i0 = true) by (inversion Hsp; assumption).
  pose (lines := (lit "Question: " ++ text b)
                   :: map (fun line => indent ++ line)
                        [lit "A) " ++ option_a b; lit "B) " ++ option_b b;
                         lit "C) " ++ option_c b; lit "D) " ++ option_d b;
                         lit "Answer: " ++ [letter b]]).
  assert (Hlines : Forall (fun l => l <> [] /\ nl_free l) lines).
  { pose proof (block_lines_ok b Hb) as Hok. unfold block_lines in Hok.
    inversion Hok as [|? ? H1 Hrest]; subst. constructor; [exact H1|].
    clear Hok H1. cbn [map].
    repeat match goal with
           | H : Forall _ (_ :: _) |- _ => inversion H; subst; clear H
           end.
    repeat (constructor;
            [split; [discriminate|apply nl_free_app; [exact Hnl|tauto]]|]).
    constructor. }
  assert (Hrender : render_indented indent b = indent ++ join [nl] lines ++ []).
  { unfold render_indented, block_lines, lines. cbn [map join].
    rewrite app_nil_r, <- !app_assoc. reflexivity. }
  assert (Hstrip : strip (join [nl] lines) = join [nl] lines).
  { apply strip_fixed. split.
    - intros c t E. unfold lines in E. cbn in E. injection E as <- _. reflexivity.
    - intros c t E.
      destruct (join_ends [nl]
                  ((lit "Question: " ++ text b)
                     :: map (fun line => indent ++ line)
                          [lit "A) " ++ option_a b; lit "B) " ++ option_b b;
                           lit "C) " ++ option_c b; lit "D) " ++ option_d b])
                  (indent ++ lit "Answer: ") (letter b)) as [pre Hpre].
      assert (Hsame : join [nl] lines = pre ++ [letter b]).
      { rewrite <- Hpre. unfold lines. cbn [map app].
        rewrite <- !app_assoc. reflexivity. }
      rewrite Hsame in E. apply app_inj_tail in E as [_ <-].
      apply isspace_letter. apply Hb. }
  assert (Hblocks : blocks_of (render_indented indent b) = [join [nl] lines]).
  { unfold blocks_of.
    rewrite Hrender, (strip_padded indent (join [nl] lines) [] Hsp (Forall_nil _)).
    rewrite Hstrip. apply split_last, clean_nl_nl, paragraph_join, Hlines. }
  assert (Hsplit : split [nl] (join [nl] lines) = lines).
  { apply split_join; [discriminate|].
    eapply Forall_impl; [|exact Hlines]. intros l [_ Hl]. now apply clean_nl. }
  assert (Hanswer : answer (scan_block (join [nl] lines)) = []).
  { unfold scan_block. rewrite Hstrip, Hsplit.
    destruct (scan_lines_closed_form lines empty_q_data) as (_ & _ & ->).
    rewrite last_with_prefix_none; [reflexivity|].
    intros line [<-|Hin]; [reflexivity|].
    apply in_map_iff in Hin as (l & <- & _).
    now apply startswith_space. }
  rewrite parse_questions_filter, Hblocks. cbn [map filter].
  unfold accepted. rewrite Hanswer. cbn [nonempty]. now rewrite andb_false_r.
Qed.

Lemma indented_block_dropped_witness :
  parse_questions (render_indented (lit "    ") block_sky) = [].
Proof.
  refine (indented_block_dropped (lit "    ") block_sky follows_grammar_sky _ _ _).
  - discriminate.
  - repeat constructor.
  - apply nl_free_check. reflexivity.
Defined.

(** ** A quiz generated in one run and answered in the next *)


